(** * ts2-sim-server: the interlocking core, embedded and verified

    A shallow embedding of the Go sources of the simulation package
    (signals, simulation loader and clock) and of the standard routes
    manager, followed by the properties their specification states. *)

From Stdlib Require Import ZArith Floats Ascii String.
From stdpp Require Import gmap strings list fin_maps.

Local Open Scope Z_scope.

(** ** Signals (simulation/track_signals.go) *)

(** [signalLineStyle] and [signalShape] are [uint8] values. *)
Definition signalLineStyle := Z.
Definition lineStyle : signalLineStyle := 0.
Definition bufferStyle : signalLineStyle := 1.

Definition signalShape := Z.
Definition noneShape : signalShape := 0.
Definition circleShape : signalShape := 1.

(** [ActionTarget] is a [uint8]: the three named constants are not the only
    values a decoded action can carry. *)
Definition ActionTarget := Z.
Definition ASAP : ActionTarget := 0.
Definition BeforeThisSignal : ActionTarget := 1.
Definition BeforeNextSignal : ActionTarget := 2.

(** [time.Duration] is a count of nanoseconds. *)
Definition Duration := Z.

Record SignalAction := mkSignalAction {
  Target : ActionTarget;
  Speed : float;
  sa_Duration : Duration
}.

(** Modelled from the spec: the [Color] type is declared outside the
    sources at hand; colours are kept as their textual form. *)
Definition Color := string.

Record SignalAspect := mkSignalAspect {
  aspect_Name : string;
  LineStyle : signalLineStyle;
  OuterShapes : list signalShape;
  OuterColors : list Color;
  Shapes : list signalShape;
  ShapesColors : list Color;
  Actions : list SignalAction
}.

(** Go's [x != 0] on a [float64]: IEEE comparison, so both zeros are equal
    to [0] and a NaN is different from it. *)
Definition float_nonzero (x : float) : bool := negb (PrimFloat.eqb x 0%float).

Definition MeansProceed (sa : SignalAspect) : bool :=
  match Actions sa with
  | [] => true
  | a0 :: _ =>
      if float_nonzero (Speed a0) then true
      else if Target a0 =? BeforeNextSignal then true
      else false
  end.

(** A [SignalState] pairs an aspect with the conditions to display it. *)
Record SignalState := mkSignalState {
  Aspect : SignalAspect;
  Conditions : gmap string (list string)
}.

Record SignalType := mkSignalType {
  st_Name : string;
  States : list SignalState
}.

Record SignalLibrary := mkSignalLibrary {
  Aspects : gmap string SignalAspect;
  Types : gmap string SignalType
}.

(** ** Routes and track items

    The declarations of [Route], [Position], [trackStruct] and of the
    [TrackItem] interface are not part of the sources at hand; the routes
    manager and the signal item use them through the accessors below. *)

(** Modelled from the spec: a Position is a (trackItem, enteredFromItem)
    pair; both are item IDs resolved through the simulation's TrackItems
    map. *)
Record Position := mkPosition {
  TrackItemID : Z;
  PreviousItemID : Z
}.

(** Modelled from the spec: a Route has an integer ID, the IDs of its two
    bounding signals and the ordered sequence of its positions. *)
Record Route := mkRoute {
  ID : Z;
  BeginSignalId : Z;
  EndSignalId : Z;
  Positions : list Position
}.

(** A [*Route] is either nil or refers to a route. *)
Abbreviation RoutePtr := (option Route).

(** Modelled from the spec: the part every track item variant embeds. It
    carries the identity, the optional conflict item and the route-activity
    state (active route and the neighbour that route enters from); items
    refer to each other by ID. *)
Record trackStruct := mkTrackStruct {
  tsID : Z;
  ConflictTiId : option Z;
  activeRoute : RoutePtr;
  activeRoutePreviousItem : option Z
}.

Record SignalItem := mkSignalItem {
  si_trackStruct : trackStruct;
  Xb : float;
  Yb : float;
  SignalTypeCode : string;
  Reverse : bool;
  TrainID : Z;
  previousActiveRoute : RoutePtr;
  nextActiveRoute : RoutePtr;
  activeAspect : option SignalAspect
}.

(** Modelled from the spec: the type tags [Type()] returns, one per track
    item variant (the enumeration is declared outside the sources at hand,
    which name [TypePoints] and [TypeSignal]). *)
Inductive TrackItemType :=
  | TypeLine | TypeInvisibleLink | TypeEnd | TypePlatform
  | TypeText | TypePoints | TypeSignal.

#[global] Instance TrackItemType_eq_dec : EqDecision TrackItemType.
Proof. solve_decision. Defined.

(** Modelled from the spec: the [TrackItem] interface, as the closed set
    of variants the loader builds; each variant embeds a [trackStruct], the
    signal variant inside its [SignalItem]. *)
Inductive TrackItem :=
  | LineItem (ts : trackStruct)
  | InvisibleLinkItem (ts : trackStruct)
  | EndItem (ts : trackStruct)
  | PlatformItem (ts : trackStruct)
  | TextItem (ts : trackStruct)
  | PointsItem (ts : trackStruct)
  | SignalItemOf (si : SignalItem).

Definition ti_trackStruct (ti : TrackItem) : trackStruct :=
  match ti with
  | LineItem ts | InvisibleLinkItem ts | EndItem ts
  | PlatformItem ts | TextItem ts | PointsItem ts => ts
  | SignalItemOf si => si_trackStruct si
  end.

Definition ti_Type (ti : TrackItem) : TrackItemType :=
  match ti with
  | LineItem _ => TypeLine
  | InvisibleLinkItem _ => TypeInvisibleLink
  | EndItem _ => TypeEnd
  | PlatformItem _ => TypePlatform
  | TextItem _ => TypeText
  | PointsItem _ => TypePoints
  | SignalItemOf _ => TypeSignal
  end.

(** Modelled from the spec: [ID()] and [ActiveRoute()] read the embedded
    struct. *)
Definition ti_ID (ti : TrackItem) : Z := tsID (ti_trackStruct ti).
Definition ActiveRoute (ti : TrackItem) : RoutePtr := activeRoute (ti_trackStruct ti).

(** *** Methods of [SignalItem] *)

Definition ActiveAspect (si : SignalItem) : option SignalAspect := activeAspect si.

(** [updateSignalState] has an empty body. *)
Definition updateSignalState (si : SignalItem) : SignalItem := si.

Definition set_trackStruct (si : SignalItem) (ts : trackStruct) : SignalItem :=
  mkSignalItem ts (Xb si) (Yb si) (SignalTypeCode si) (Reverse si) (TrainID si)
    (previousActiveRoute si) (nextActiveRoute si) (activeAspect si).

Definition set_nextActiveRoute (si : SignalItem) (r : RoutePtr) : SignalItem :=
  mkSignalItem (si_trackStruct si) (Xb si) (Yb si) (SignalTypeCode si) (Reverse si)
    (TrainID si) (previousActiveRoute si) r (activeAspect si).

Definition set_previousActiveRoute (si : SignalItem) (r : RoutePtr) : SignalItem :=
  mkSignalItem (si_trackStruct si) (Xb si) (Yb si) (SignalTypeCode si) (Reverse si)
    (TrainID si) r (nextActiveRoute si) (activeAspect si).

Section SignalItemSetActiveRoute.
(** [trackStruct.setActiveRoute] is declared outside the sources at hand:
    it is a method of the embedded struct, taken here as a parameter. *)
Variable trackStruct_setActiveRoute :
  trackStruct -> RoutePtr -> option TrackItem -> trackStruct.

Definition setActiveRoute (si : SignalItem) (r : RoutePtr)
    (previous : option TrackItem) : SignalItem :=
  let si := set_trackStruct si
              (trackStruct_setActiveRoute (si_trackStruct si) r previous) in
  updateSignalState si.
End SignalItemSetActiveRoute.

(** The guard [r != nil && cur != nil && cur.ID != r.ID] of both resets. *)
Definition refers_to_other (r cur : RoutePtr) : bool :=
  match r, cur with
  | Some r, Some cur => negb (ID cur =? ID r)
  | _, _ => false
  end.

Definition resetNextActiveRoute (si : SignalItem) (r : RoutePtr) : SignalItem :=
  if refers_to_other r (nextActiveRoute si) then si
  else updateSignalState (set_nextActiveRoute si None).

Definition resetPreviousActiveRoute (si : SignalItem) (r : RoutePtr) : SignalItem :=
  if refers_to_other r (previousActiveRoute si) then si
  else updateSignalState (set_previousActiveRoute si None).

(** ** The simulation (simulation.go) *)

(** Modelled from the spec: [Time] wraps [time.Time] (its declaration is
    outside the sources at hand); an instant is a count of nanoseconds and
    [Add] moves it by a duration. *)
Definition Time := Z.
Definition Time_Add (t : Time) (d : Duration) : Time := t + d.

Definition Nanosecond : Duration := 1.
Definition Microsecond : Duration := 1000 * Nanosecond.
Definition Millisecond : Duration := 1000 * Microsecond.
Definition Second : Duration := 1000 * Millisecond.

Definition TIME_STEP : Duration := 500 * Millisecond.

(** Modelled from the spec: the simulation options include CurrentTime. *)
Record options := mkOptions {
  CurrentTime : Time
}.

(** Modelled from the spec: a place record is found by its place code. *)
Record placeStruct := mkPlace {
  PlaceCode : string
}.

(** Modelled from the spec: train types, services, trains and the message
    logger are declared outside the sources at hand; the simulation only
    holds pointers to them, kept here as opaque references. *)
Definition ref := Z.

(** A channel is known by its identity; a ticker by its period. *)
Definition chan := Z.
Record Ticker := mkTicker { period : Duration }.

Record Simulation := mkSimulation {
  SignalLib : SignalLibrary;
  TrackItems : gmap Z TrackItem;
  Places : gmap string placeStruct;
  Options : options;
  Routes : gmap Z Route;
  TrainTypes : gmap string ref;
  Services : gmap string ref;
  Trains : list ref;
  MessageLogger : option ref;
  EventChan : option chan;
  clockTicker : option Ticker;
  stopChan : option chan
}.

(** *** Accessors resolved through the simulation *)

(** Modelled from the spec: [Position.TrackItem()], [Position.PreviousItem()],
    [TrackItem.ConflictItem()] and [TrackItem.ActiveRoutePreviousItem()] are
    declared outside the sources at hand. Each resolves an item ID through
    the [TrackItems] map of the simulation; the interface value is nil
    ([None]) when there is no such item, and calling a method on it
    panics. *)
Definition Position_TrackItem (sim : Simulation) (pos : Position) : option TrackItem :=
  TrackItems sim !! TrackItemID pos.

Definition Position_PreviousItem (sim : Simulation) (pos : Position) : option TrackItem :=
  TrackItems sim !! PreviousItemID pos.

Definition ConflictItem (sim : Simulation) (ti : TrackItem) : option TrackItem :=
  k ← ConflictTiId (ti_trackStruct ti); TrackItems sim !! k.

Definition ActiveRoutePreviousItem (sim : Simulation) (ti : TrackItem) : option TrackItem :=
  k ← activeRoutePreviousItem (ti_trackStruct ti); TrackItems sim !! k.

(** ** The standard routes manager (routes package) *)

(** The outcome of a call that may panic on a nil receiver. *)
Abbreviation Panic := None (only parsing).
Abbreviation Return := Some (only parsing).

(** [ti.ID() == r.BeginSignalId || ti.ID() == r.EndSignalId] *)
Definition is_boundary (r : Route) (ti : TrackItem) : bool :=
  (ti_ID ti =? BeginSignalId r) || (ti_ID ti =? EndSignalId r).

(** [ti.ConflictItem() != nil && ti.ConflictItem().ActiveRoute() != nil] *)
Definition conflict_is_active (sim : Simulation) (ti : TrackItem) : bool :=
  match ConflictItem sim ti with
  | Some c => bool_decide (is_Some (ActiveRoute c))
  | None => false
  end.

(** The body of the loop of [CanActivate], with the local [flag] as an
    argument: the remaining positions are walked in order. *)
Fixpoint CanActivate_walk (sim : Simulation) (r : Route) (flag : bool)
    (ps : list Position) : option bool :=
  match ps with
  | [] => Return true
  | pos :: rest =>
      ti ← Position_TrackItem sim pos;
      if is_boundary r ti then CanActivate_walk sim r flag rest
      else if conflict_is_active sim ti then Return false
      else match ActiveRoute ti with
           | None =>
               if flag then Return false
               else CanActivate_walk sim r flag rest
           | Some ar =>
               if bool_decide (ti_Type ti = TypePoints) && negb flag then Return false
               else
                 prev ← Position_PreviousItem sim pos;
                 arpi ← ActiveRoutePreviousItem sim ti;
                 if negb (ti_ID prev =? ti_ID arpi) then Return false
                 else if ID ar =? ID r then Return true
                 else CanActivate_walk sim r true rest
           end
  end.

(** The interface every routes manager implements. *)
Class RoutesManager (M : Type) := {
  CanActivate : M -> Simulation -> Route -> option bool;
  CanDeactivate : M -> RoutePtr -> bool;
  Name : M -> string
}.

Inductive StandardManager : Set := mkStandardManager.

#[global] Instance StandardManager_RoutesManager : RoutesManager StandardManager := {
  CanActivate _ sim r := CanActivate_walk sim r false (Positions r);
  CanDeactivate _ _ := true;
  Name _ := "Standard Manager"%string
}.

(** ** Loading a simulation ([Simulation.UnmarshalJSON]) *)

(** *** The library functions the loader calls *)

(** The double quote character. *)
Definition dquote : ascii := "034"%char.

(** A JSON string literal: the text between double quotes. *)
Definition quoted (s : string) : string :=
  String dquote (s +:+ String dquote EmptyString).

Fixpoint string_mem (c : ascii) (cutset : string) : bool :=
  match cutset with
  | EmptyString => false
  | String a rest => Ascii.eqb a c || string_mem c rest
  end.

Fixpoint TrimLeft (s cutset : string) : string :=
  match s with
  | EmptyString => EmptyString
  | String a rest => if string_mem a cutset then TrimLeft rest cutset else s
  end.

Fixpoint string_rev_onto (acc s : string) : string :=
  match s with
  | EmptyString => acc
  | String a rest => string_rev_onto (String a acc) rest
  end.

Definition string_rev (s : string) : string := string_rev_onto EmptyString s.

(** [strings.Trim(s, cutset)]: [s] without its leading and trailing
    characters that belong to [cutset]. *)
Definition Trim (s cutset : string) : string :=
  string_rev (TrimLeft (string_rev (TrimLeft s cutset)) cutset).

Inductive NumError := ErrSyntax | ErrRange.

Definition is_digit (c : ascii) : bool :=
  let n := Z.of_nat (nat_of_ascii c) in (48 <=? n) && (n <=? 57).

Fixpoint digits_value (acc : Z) (s : string) : option Z :=
  match s with
  | EmptyString => Some acc
  | String c rest =>
      if is_digit c
      then digits_value (10 * acc + (Z.of_nat (nat_of_ascii c) - 48)) rest
      else None
  end.

Definition max_int : Z := 2 ^ 63 - 1.
Definition min_int : Z := - 2 ^ 63.

(** [strconv.Atoi] on a 64-bit platform: an optional sign and decimal
    digits, within the range of [int]. *)
Definition Atoi (s : string) : Z + NumError :=
  let '(neg, body) :=
    match s with
    | String "-" rest => (true, rest)
    | String "+" rest => (false, rest)
    | _ => (false, s)
    end in
  match body with
  | EmptyString => inr ErrSyntax
  | _ =>
      match digits_value 0 body with
      | None => inr ErrSyntax
      | Some n =>
          let v := if neg : bool then - n else n in
          if (min_int <=? v) && (v <=? max_int) then inl v else inr ErrRange
      end
  end.

(** The text of the error [Atoi] returns for [s]. *)
Definition NumError_text (s : string) (e : NumError) : string :=
  "strconv.Atoi: parsing " +:+ quoted s +:+
  match e with
  | ErrSyntax => ": invalid syntax"
  | ErrRange => ": value out of range"
  end.

(** The outcome of a call to [json.Unmarshal]: the decoded value or the
    text of the error. *)
Inductive decoded (A : Type) :=
  | Decoded (a : A)
  | DecodeError (msg : string).
Arguments Decoded {A} a.
Arguments DecodeError {A} msg.

(** One raw track item message ([json.RawMessage]) with what decoding it
    yields: as a map of raw fields, as the struct of a track item variant
    and as a place. The raw value of a field is its JSON text, so a string
    field keeps its quotes. *)
Record RawItem := mkRawItem {
  raw_text : string;
  raw_fields : decoded (gmap string string);
  raw_item : TrackItemType -> decoded TrackItem;
  raw_place : decoded placeStruct
}.

(** The auxiliary struct the whole document is decoded into. The two maps
    that are ranged over are lists of entries in the order the range
    visits them. *)
Record auxSim := mkAuxSim {
  aux_TrackItems : list (string * RawItem);
  aux_Options : options;
  aux_SignalLib : SignalLibrary;
  aux_Routes : list (string * Route);
  aux_TrainTypes : gmap string ref;
  aux_Services : gmap string ref;
  aux_Trains : list ref;
  aux_MessageLogger : option ref
}.

(** Go's [error]: nil or a message. *)
Definition error := option string.
Definition nil_error : error := None.
Definition Errorf (msg : string) : error := Some msg.

(** *** Field updates of the simulation *)

Definition set_TrackItems (sim : Simulation) (m : gmap Z TrackItem) : Simulation :=
  mkSimulation (SignalLib sim) m (Places sim) (Options sim) (Routes sim)
    (TrainTypes sim) (Services sim) (Trains sim) (MessageLogger sim)
    (EventChan sim) (clockTicker sim) (stopChan sim).

Definition set_Places (sim : Simulation) (m : gmap string placeStruct) : Simulation :=
  mkSimulation (SignalLib sim) (TrackItems sim) m (Options sim) (Routes sim)
    (TrainTypes sim) (Services sim) (Trains sim) (MessageLogger sim)
    (EventChan sim) (clockTicker sim) (stopChan sim).

Definition set_Options (sim : Simulation) (o : options) : Simulation :=
  mkSimulation (SignalLib sim) (TrackItems sim) (Places sim) o (Routes sim)
    (TrainTypes sim) (Services sim) (Trains sim) (MessageLogger sim)
    (EventChan sim) (clockTicker sim) (stopChan sim).

Definition set_SignalLib (sim : Simulation) (l : SignalLibrary) : Simulation :=
  mkSimulation l (TrackItems sim) (Places sim) (Options sim) (Routes sim)
    (TrainTypes sim) (Services sim) (Trains sim) (MessageLogger sim)
    (EventChan sim) (clockTicker sim) (stopChan sim).

Definition set_Routes (sim : Simulation) (m : gmap Z Route) : Simulation :=
  mkSimulation (SignalLib sim) (TrackItems sim) (Places sim) (Options sim) m
    (TrainTypes sim) (Services sim) (Trains sim) (MessageLogger sim)
    (EventChan sim) (clockTicker sim) (stopChan sim).

(** The last four assignments of the loader: train types, services, trains
    and message logger. *)
Definition set_rolling (sim : Simulation) (tt sv : gmap string ref)
    (tr : list ref) (ml : option ref) : Simulation :=
  mkSimulation (SignalLib sim) (TrackItems sim) (Places sim) (Options sim)
    (Routes sim) tt sv tr ml (EventChan sim) (clockTicker sim) (stopChan sim).

Definition set_clock (sim : Simulation) (ticker : option Ticker)
    (stop event : option chan) : Simulation :=
  mkSimulation (SignalLib sim) (TrackItems sim) (Places sim) (Options sim)
    (Routes sim) (TrainTypes sim) (Services sim) (Trains sim)
    (MessageLogger sim) event ticker stop.

Definition set_tsID (ts : trackStruct) (k : Z) : trackStruct :=
  mkTrackStruct k (ConflictTiId ts) (activeRoute ts) (activeRoutePreviousItem ts).

(** Modelled from the spec: [setId] gives an item its integer identity (the
    method is declared with [trackStruct], outside the sources at hand). *)
Definition ti_setId (ti : TrackItem) (k : Z) : TrackItem :=
  match ti with
  | LineItem ts => LineItem (set_tsID ts k)
  | InvisibleLinkItem ts => InvisibleLinkItem (set_tsID ts k)
  | EndItem ts => EndItem (set_tsID ts k)
  | PlatformItem ts => PlatformItem (set_tsID ts k)
  | TextItem ts => TextItem (set_tsID ts k)
  | PointsItem ts => PointsItem (set_tsID ts k)
  | SignalItemOf si => SignalItemOf (set_trackStruct si (set_tsID (si_trackStruct si) k))
  end.

(** *** The loader *)

(** The closure [unmarshalItem], called with a fresh struct of variant
    [ty]: it returns an error when the message does not decode or when the
    key is not a number, and stores the item otherwise. [setSimulation]
    records a back pointer the store-passing model has no use for. *)
Definition unmarshalItem (sim : Simulation) (tiId tiType : string)
    (raw : RawItem) (ty : TrackItemType) : Simulation * error :=
  match raw_item raw ty with
  | DecodeError err =>
      (sim, Errorf ("Unable to decode " +:+ tiType +:+ ": " +:+ raw_text raw
                    +:+ ". " +:+ err))
  | Decoded ti =>
      let key := Trim tiId (String dquote EmptyString) in
      match Atoi key with
      | inr errconv =>
          (sim, Errorf ("Unable to convert " +:+ NumError_text key errconv))
      | inl tiId =>
          let ti := ti_setId ti tiId in
          (set_TrackItems sim (<[tiId := ti]> (TrackItems sim)), nil_error)
      end
  end.

(** One iteration of the loop over the raw track items. In the seven item
    cases of the switch the value [unmarshalItem] returns is dropped. *)
Definition load_TrackItem (sim : Simulation) (tiId : string) (raw : RawItem)
    : Simulation * error :=
  match raw_fields raw with
  | DecodeError err =>
      (sim, Errorf ("Unable to read TrackItem: " +:+ raw_text raw +:+ ". " +:+ err))
  | Decoded rawItem =>
      let tiType := default EmptyString (rawItem !! "__type__"%string) in
      let item ty := (fst (unmarshalItem sim tiId tiType raw ty), nil_error) in
      if (tiType =? quoted "LineItem")%string then item TypeLine
      else if (tiType =? quoted "InvisibleLinkItem")%string then item TypeInvisibleLink
      else if (tiType =? quoted "EndItem")%string then item TypeEnd
      else if (tiType =? quoted "PlatformItem")%string then item TypePlatform
      else if (tiType =? quoted "TextItem")%string then item TypeText
      else if (tiType =? quoted "PointsItem")%string then item TypePoints
      else if (tiType =? quoted "SignalItem")%string then item TypeSignal
      else if (tiType =? quoted "Place")%string then
        match raw_place raw with
        | DecodeError err =>
            (sim, Errorf ("Unable to decode Place: " +:+ raw_text raw +:+ ". " +:+ err))
        | Decoded pl =>
            (set_Places sim (<[PlaceCode pl := pl]> (Places sim)), nil_error)
        end
      else (sim, Errorf ("Unknown TrackItem type: " +:+ tiType))
  end.

Fixpoint load_TrackItems (sim : Simulation) (items : list (string * RawItem))
    : Simulation * error :=
  match items with
  | [] => (sim, nil_error)
  | (tiId, raw) :: rest =>
      match load_TrackItem sim tiId raw with
      | (sim, None) => load_TrackItems sim rest
      | (sim, Some msg) => (sim, Some msg)
      end
  end.

(** The loop over the routes; [setSimulation] and [initialize] are declared
    outside the sources at hand and the routes are taken with their
    positions set. *)
Fixpoint load_Routes (sim : Simulation) (routes : list (string * Route))
    : Simulation * error :=
  match routes with
  | [] => (sim, nil_error)
  | (num, route) :: rest =>
      match Atoi num with
      | inr _ => (sim, Errorf ("RouteNum : `" +:+ num +:+ "` is invalid"))
      | inl routeNum =>
          load_Routes (set_Routes sim (<[routeNum := route]> (Routes sim))) rest
      end
  end.

Definition UnmarshalJSON (sim : Simulation) (data : decoded auxSim)
    : Simulation * error :=
  match data with
  | DecodeError err => (sim, Errorf ("Unable to decode simulation JSON: " +:+ err))
  | Decoded rawSim =>
      let sim := set_TrackItems sim ∅ in
      let sim := set_Places sim ∅ in
      match load_TrackItems sim (aux_TrackItems rawSim) with
      | (sim, Some msg) => (sim, Some msg)
      | (sim, None) =>
          let sim := set_Options sim (aux_Options rawSim) in
          let sim := set_SignalLib sim (aux_SignalLib rawSim) in
          let sim := set_Routes sim ∅ in
          match load_Routes sim (aux_Routes rawSim) with
          | (sim, Some msg) => (sim, Some msg)
          | (sim, None) =>
              (set_rolling sim (aux_TrainTypes rawSim) (aux_Services rawSim)
                 (aux_Trains rawSim) (aux_MessageLogger rawSim), nil_error)
          end
      end
  end.

(** ** The clock ([Start], [run], [Pause]) *)

Inductive EventName : Set := CLOCK.

(** The object of a clock event is a pointer to the [CurrentTime] field of
    the simulation, not a copy of its value. *)
Inductive EventObject : Set := CurrentTime_ptr.

Record Event := mkEvent {
  ev_Name : EventName;
  ev_Object : EventObject
}.

(** What a call leaves behind besides the new state of the simulation:
    goroutines it spawns, log lines, the ticker it stops and the value it
    sends. *)
Inductive effect :=
  | go_run
  | go_send_EventChan (e : Event)
  | logger_Info (msg : string)
  | Ticker_Stop (t : Ticker)
  | send_stopChan (c : option chan) (b : bool).

Definition NewTicker (d : Duration) : Ticker := mkTicker d.

(** [Start]; the two channels [make] returns are arguments. *)
Definition Start (sim : Simulation) (stop event : chan)
    : Simulation * list effect :=
  match clockTicker sim with
  | None =>
      (set_clock sim (Some (NewTicker TIME_STEP)) (Some stop) (Some event),
       [go_run; logger_Info "Simulation started"])
  | Some _ => (sim, [])
  end.

(** The cases the [select] of [run] can pick. *)
Inductive selectCase := stop_requested | tick_due.

(** [run] over the cases its [select] picks, in order, until the trace is
    exhausted (the loop is then waiting) or the function returns. Entering
    the [select] reads the channel of the ticker, which panics on a nil
    ticker. *)
Fixpoint run (sim : Simulation) (trace : list selectCase)
    : option (Simulation * list effect) :=
  ticker ← clockTicker sim;
  match trace with
  | [] => Return (sim, [])
  | stop_requested :: _ =>
      Return (set_clock sim None (stopChan sim) None,
              [Ticker_Stop ticker; logger_Info "Simulation paused"])
  | tick_due :: rest =>
      let now := Time_Add (CurrentTime (Options sim)) TIME_STEP in
      let sim := set_Options sim (mkOptions now) in
      '(sim', effs) ← run sim rest;
      Return (sim', go_send_EventChan (mkEvent CLOCK CurrentTime_ptr) :: effs)
  end.

Definition Pause (sim : Simulation) : list effect :=
  [send_stopChan (stopChan sim) true].

(** One step of the life of the clock: a call to [Start], or the [run]
    loop working through some cases. *)
Inductive clock_step : Simulation -> Simulation -> Prop :=
  | step_Start sim stop event :
      clock_step sim (Start sim stop event).1
  | step_run sim trace sim' effs :
      run sim trace = Some (sim', effs) ->
      clock_step sim sim'.

(** The number of ticks a trace delivers before the loop returns. *)
Fixpoint ticks_of (trace : list selectCase) : nat :=
  match trace with
  | tick_due :: rest => S (ticks_of rest)
  | _ => O
  end.


(** ** Predicates on the state a route is checked in *)

(** The item of [pos] holds route [r], entered from the previous item of
    [pos]. *)
Definition holds_route (sim : Simulation) (r : Route) (pos : Position) : Prop :=
  exists ti prev,
    Position_TrackItem sim pos = Some ti
    /\ ActiveRoute ti = Some r
    /\ Position_PreviousItem sim pos = Some prev
    /\ ActiveRoutePreviousItem sim ti = Some prev.

(** [r] is active on all its positions. *)
Definition fully_active (sim : Simulation) (r : Route) : Prop :=
  Forall (holds_route sim r) (Positions r).


(** The item of [pos] is a bounding signal of [r] or holds no route. *)
Definition boundary_or_free (sim : Simulation) (r : Route) (pos : Position) : Prop :=
  exists ti,
    Position_TrackItem sim pos = Some ti
    /\ (is_boundary r ti = true \/ ActiveRoute ti = None).

(** [pos] names an item and a previous item of the simulation, and its item
    has its entry neighbour recorded if it holds a route. *)
Definition well_linked (sim : Simulation) (pos : Position) : Prop :=
  exists ti,
    Position_TrackItem sim pos = Some ti
    /\ is_Some (Position_PreviousItem sim pos)
    /\ (is_Some (ActiveRoute ti) -> is_Some (ActiveRoutePreviousItem sim ti)).

(** The item of [pos], when it is not a bounding signal of [r], does not
    hold a route with the ID of [r]. *)
Definition not_held_by (sim : Simulation) (r : Route) (pos : Position) : Prop :=
  forall ti ar,
    Position_TrackItem sim pos = Some ti ->
    is_boundary r ti = false ->
    ActiveRoute ti = Some ar ->
    ID ar <> ID r.

(** ** Predicates on raw track items *)

(** The type tags of the seven track item variants. *)
Definition item_tags : list string :=
  [quoted "LineItem"; quoted "InvisibleLinkItem"; quoted "EndItem";
   quoted "PlatformItem"; quoted "TextItem"; quoted "PointsItem";
   quoted "SignalItem"].

(** The raw type tag of a track item message, empty when the message has
    no [__type__] field. *)
Definition type_tag (raw : RawItem) : option string :=
  match raw_fields raw with
  | Decoded rawItem => Some (default EmptyString (rawItem !! "__type__"%string))
  | DecodeError _ => None
  end.

(** The message decodes as an object whose type tag is none of the tags
    the loader knows. *)
Definition unknown_type (raw : RawItem) : Prop :=
  exists tag, type_tag raw = Some tag /\ (tag ∉ item_tags) /\ tag <> quoted "Place".

(** The key of a track item is not the text of an integer. *)
Definition malformed_key (tiId : string) : Prop :=
  exists e, Atoi (Trim tiId (String dquote EmptyString)) = inr e.

(** ** The other methods of the signal file *)

(** [Point] is declared outside the sources at hand; [BerthOrigin] builds
    it from two coordinates. *)
Record Point := mkPoint {
  Point_X : float;
  Point_Y : float
}.

Definition SignalItem_Type (si : SignalItem) : TrackItemType := TypeSignal.

(** [si.simulation.SignalLib.Types[si.SignalTypeCode]]: nil when the
    library has no type of that code. *)
Definition SignalItem_SignalType (sim : Simulation) (si : SignalItem)
    : option SignalType :=
  Types (SignalLib sim) !! SignalTypeCode si.

Definition Reversed (si : SignalItem) : bool := Reverse si.

Definition BerthOrigin (si : SignalItem) : Point := mkPoint (Xb si) (Yb si).

(** *** Decoding a signal action *)

(** The integer part of a finite float, towards zero; infinities and NaN
    have none. *)
Definition float_trunc (x : float) : option Z :=
  match Prim2SF x with
  | S754_zero _ => Some 0
  | S754_finite s m e =>
      let magnitude := Z.shiftl (Z.pos m) e in
      Some (if s then - magnitude else magnitude)
  | S754_infinity _ | S754_nan => None
  end.

(** Go's conversion of a [float64] to an integer type of the given range:
    the fraction is dropped; when the result does not fit, the language
    leaves the value to the implementation ([None]). *)
Definition float_to_int (lo hi : Z) (x : float) : option Z :=
  k ← float_trunc x;
  if (lo <=? k) && (k <=? hi) then Some k else None.

Definition to_uint8 : float -> option Z := float_to_int 0 255.
Definition to_int64 : float -> option Z := float_to_int min_int max_int.

(** The product of two [int64] values wraps around. *)
Definition wrap64 (z : Z) : Z := (z + 2 ^ 63) mod 2 ^ 64 - 2 ^ 63.

Definition Duration_mul (a b : Duration) : Duration := wrap64 (a * b).

(** [SignalAction.UnmarshalJSON]: [rawAction] is what [json.Unmarshal]
    yields for [data] as an array of three floats. The result is the new
    value of the receiver and the error; it is [None] when a conversion is
    left to the implementation. *)
Definition SignalAction_UnmarshalJSON (sa : SignalAction) (data : string)
    (rawAction : decoded (float * float * float))
    : option (SignalAction * error) :=
  match rawAction with
  | DecodeError err =>
      Some (sa, Errorf ("unable to read signal action: " +:+ data
                        +:+ " (" +:+ err +:+ ")"))
  | Decoded (x0, x1, x2) =>
      target ← to_uint8 x0;
      seconds ← to_int64 x2;
      Some (mkSignalAction target x1 (Duration_mul seconds Second), nil_error)
  end.

(** ** Further predicates *)

(** The item of [pos] is a bounding signal of [r], or it holds no route and
    its conflict item holds none either. *)
Definition boundary_or_clear (sim : Simulation) (r : Route) (pos : Position) : Prop :=
  exists ti,
    Position_TrackItem sim pos = Some ti
    /\ (is_boundary r ti = true
        \/ (ActiveRoute ti = None /\ conflict_is_active sim ti = false)).

(** The item of [pos] is a bounding signal of [r]. *)
Definition on_boundary (sim : Simulation) (r : Route) (pos : Position) : Prop :=
  exists ti, Position_TrackItem sim pos = Some ti /\ is_boundary r ti = true.

(** The variant a type tag of the loader stands for. *)
Definition variant_of_tag (tag : string) : option TrackItemType :=
  if (tag =? quoted "LineItem")%string then Some TypeLine
  else if (tag =? quoted "InvisibleLinkItem")%string then Some TypeInvisibleLink
  else if (tag =? quoted "EndItem")%string then Some TypeEnd
  else if (tag =? quoted "PlatformItem")%string then Some TypePlatform
  else if (tag =? quoted "TextItem")%string then Some TypeText
  else if (tag =? quoted "PointsItem")%string then Some TypePoints
  else if (tag =? quoted "SignalItem")%string then Some TypeSignal
  else None.

(** The number a track item key stands for, if any. *)
Definition key_number (tiId : string) : option Z :=
  match Atoi (Trim tiId (String dquote EmptyString)) with
  | inl n => Some n
  | inr _ => None
  end.

(** The entry is a track item the loader stores: its message decodes as an
    object tagged with the variant [ty], decodes as the struct of that
    variant to [ti], and its key stands for the number [n]. *)
Definition storable (entry : string * RawItem) (n : Z) (ti : TrackItem) : Prop :=
  exists tag ty,
    type_tag entry.2 = Some tag
    /\ variant_of_tag tag = Some ty
    /\ raw_item entry.2 ty = Decoded ti
    /\ key_number entry.1 = Some n.

(** The message is a place: it decodes as an object tagged Place and as
    the place record [pl]. *)
Definition is_place (raw : RawItem) (pl : placeStruct) : Prop :=
  type_tag raw = Some (quoted "Place") /\ raw_place raw = Decoded pl.

(** The item of [pos] is a bounding signal of [r], or it is held by a route
    other than [r] that enters it from the previous item of [pos], and has
    no conflict item holding a route. *)
Definition shared_same_direction (sim : Simulation) (r : Route) (pos : Position)
    : Prop :=
  exists ti,
    Position_TrackItem sim pos = Some ti
    /\ (is_boundary r ti = true
        \/ (conflict_is_active sim ti = false
            /\ exists ar prev arpi,
                 ActiveRoute ti = Some ar
                 /\ ID ar <> ID r
                 /\ Position_PreviousItem sim pos = Some prev
                 /\ ActiveRoutePreviousItem sim ti = Some arpi
                 /\ ti_ID prev = ti_ID arpi)).

(** ** Sample states

    Small concrete states on which the properties below are exercised. *)

Definition demo_route (k : Z) : Route := mkRoute k 10 20 [].

Definition demo_signal (next previous : RoutePtr) : SignalItem :=
  mkSignalItem (mkTrackStruct 10 None None None) 0 0 EmptyString false 0
    previous next None.

Definition stopped_sim : Simulation :=
  mkSimulation (mkSignalLibrary ∅ ∅) ∅ ∅ (mkOptions 0) ∅ ∅ ∅ [] None
    None None None.

Definition running_sim : Simulation := (Start stopped_sim 1 2).1.

(** A stretch of line: item 9, signal 10, items 11 and 12, signal 20, and
    item 13 aside. Route 1 runs from signal 10 to signal 20; route 2 is
    another route of the simulation. *)
Definition route_1 : Route :=
  mkRoute 1 10 20
    [mkPosition 10 9; mkPosition 11 10; mkPosition 12 11; mkPosition 20 12].

Definition route_2 : Route :=
  mkRoute 2 30 40 [mkPosition 30 13; mkPosition 12 13; mkPosition 40 12].

Definition line (k : Z) (conflict : option Z) (ar : RoutePtr) (from : option Z)
    : TrackItem :=
  LineItem (mkTrackStruct k conflict ar from).

Definition points (k : Z) (ar : RoutePtr) (from : option Z) : TrackItem :=
  PointsItem (mkTrackStruct k None ar from).

Definition signal (k : Z) (ar : RoutePtr) (from : option Z) : TrackItem :=
  SignalItemOf
    (mkSignalItem (mkTrackStruct k None ar from) 0 0 EmptyString false 0
       None None None).

Definition sim_of_items (items : list TrackItem) : Simulation :=
  set_TrackItems stopped_sim (list_to_map (map (fun ti => (ti_ID ti, ti)) items)).



(** Route 1 is active on all its positions; item 11 has item 13 as its
    conflict item, and item 13 holds route 2. *)
Definition sim_active_conflict : Simulation :=
  sim_of_items
    [line 9 None None None; signal 10 (Some route_1) (Some 9);
     line 11 (Some 13) (Some route_1) (Some 10);
     line 12 None (Some route_1) (Some 11);
     signal 20 (Some route_1) (Some 12); line 13 (Some 11) (Some route_2) (Some 9)].

(** No route is set but route 2 on the points item 11. *)
Definition sim_points_taken : Simulation :=
  sim_of_items
    [line 9 None None None; signal 10 None None;
     points 11 (Some route_2) (Some 10); line 12 None None None;
     signal 20 None None; line 13 None None None].

(** Item 11 holds route 1 entered from 10; item 12 holds route 2 entered
    from 13, the other way. *)
Definition sim_opposite_behind : Simulation :=
  sim_of_items
    [line 9 None None None; signal 10 (Some route_1) (Some 9);
     line 11 None (Some route_1) (Some 10); line 12 None (Some route_2) (Some 13);
     signal 20 None None; line 13 None None None].


(** A track item message of type LineItem, as the JSON decoder sees it. *)
Definition raw_line : RawItem :=
  mkRawItem
    ("{" +:+ quoted "__type__" +:+ ": " +:+ quoted "LineItem" +:+ "}")
    (Decoded {[ "__type__"%string := quoted "LineItem" ]})
    (fun _ => Decoded (line 0 None None None))
    (Decoded (mkPlace EmptyString)).

(** A track item message whose type tag is not known. *)
Definition raw_tram : RawItem :=
  mkRawItem
    ("{" +:+ quoted "__type__" +:+ ": " +:+ quoted "TramItem" +:+ "}")
    (Decoded {[ "__type__"%string := quoted "TramItem" ]})
    (fun _ => Decoded (line 0 None None None))
    (Decoded (mkPlace EmptyString)).

Definition doc_of_items (items : list (string * RawItem)) : auxSim :=
  mkAuxSim items (mkOptions 0) (mkSignalLibrary ∅ ∅) [] ∅ ∅ [] (Some 1).

(** A document whose only track item has the key [abc]. *)
Definition doc_bad_key : auxSim := doc_of_items [("abc"%string, raw_line)].

(** A document with a well-formed item and one of unknown type. *)
Definition doc_unknown_type : auxSim :=
  doc_of_items [("1"%string, raw_line); ("2"%string, raw_tram)].

(** Item 11 holds route 2 in the direction of route 1; item 12 is free. *)
Definition sim_shared_then_free : Simulation :=
  sim_of_items
    [line 9 None None None; signal 10 None None;
     line 11 None (Some route_2) (Some 10); line 12 None None None;
     signal 20 None None; line 13 None None None].

(** Items 11 and 12 hold route 2 in the direction of route 1. *)
Definition sim_shared : Simulation :=
  sim_of_items
    [line 9 None None None; signal 10 None None;
     line 11 None (Some route_2) (Some 10); line 12 None (Some route_2) (Some 11);
     signal 20 None None; line 13 None None None].

(** No route is set. *)
Definition sim_free : Simulation :=
  sim_of_items
    [line 9 None None None; signal 10 None None;
     line 11 None None None; line 12 None None None;
     signal 20 None None; line 13 None None None].

(** A document with two line items, keys 1 and 2. *)
Definition doc_two_lines : auxSim :=
  doc_of_items [("1"%string, raw_line); ("2"%string, raw_line)].


(** The plain aspect with the given actions. *)
Definition aspect_of (actions : list SignalAction) : SignalAspect :=
  mkSignalAspect EmptyString lineStyle [] [] [] [] actions.

(** A place message for the place of code [STN]. *)
Definition raw_station : RawItem :=
  mkRawItem
    ("{" +:+ quoted "__type__" +:+ ": " +:+ quoted "Place" +:+ "}")
    (Decoded {[ "__type__"%string := quoted "Place" ]})
    (fun _ => Decoded (line 0 None None None))
    (Decoded (mkPlace "STN")).

(** A document with a line item and a place, and route 1 under number 1. *)
Definition doc_station : auxSim :=
  mkAuxSim [("1"%string, raw_line); ("p"%string, raw_station)] (mkOptions 0)
    (mkSignalLibrary ∅ ∅) [("1"%string, route_1)] ∅ ∅ [] (Some 1).
(** * Properties *)

(** ** Signal aspects *)

Lemma float_nonzero_zero : float_nonzero 0%float = false.
Proof. reflexivity. Qed.

Lemma float_nonzero_neg_zero : float_nonzero (-0)%float = false.
Proof. reflexivity. Qed.

Lemma float_nonzero_nan : float_nonzero nan = true.
Proof. reflexivity. Qed.




(** ** Signal items *)

Lemma refers_to_other_true r cur :
  refers_to_other r cur = true <->
  exists r' cur', r = Some r' /\ cur = Some cur' /\ ID cur' <> ID r'.
Proof.
  destruct r as [r' |], cur as [cur' |]; simpl.
  - rewrite negb_true_iff, Z.eqb_neq. split.
    + intros H. by exists r', cur'.
    + intros (? & ? & [= <-] & [= <-] & H). done.
  - split; [done | by intros (? & ? & _ & ? & _)].
  - split; [done | by intros (? & ? & ? & _)].
  - split; [done | by intros (? & ? & ? & _)].
Qed.

Lemma resetNextActiveRoute_cases si r :
  resetNextActiveRoute si r =
  if refers_to_other r (nextActiveRoute si) then si else set_nextActiveRoute si None.
Proof. reflexivity. Qed.

Lemma resetPreviousActiveRoute_cases si r :
  resetPreviousActiveRoute si r =
  if refers_to_other r (previousActiveRoute si) then si
  else set_previousActiveRoute si None.
Proof. reflexivity. Qed.

(** C7: for a non-nil route [r], a reset is a no-op when the stored route
    is non-nil and has another ID than [r], and clears the field when the
    stored route has the ID of [r]; both resets are total functions, so a
    mismatch never surfaces as a failure. *)
Theorem reset_mismatch_is_noop si r cur :
  (nextActiveRoute si = Some cur -> ID cur <> ID r ->
     resetNextActiveRoute si (Some r) = si)
  /\ (previousActiveRoute si = Some cur -> ID cur <> ID r ->
        resetPreviousActiveRoute si (Some r) = si)
  /\ (nextActiveRoute si = Some cur -> ID cur = ID r ->
        resetNextActiveRoute si (Some r) = set_nextActiveRoute si None
        /\ nextActiveRoute (resetNextActiveRoute si (Some r)) = None)
  /\ (previousActiveRoute si = Some cur -> ID cur = ID r ->
        resetPreviousActiveRoute si (Some r) = set_previousActiveRoute si None
        /\ previousActiveRoute (resetPreviousActiveRoute si (Some r)) = None).
Proof.
  rewrite resetNextActiveRoute_cases, resetPreviousActiveRoute_cases.
  split; [| split; [| split]]; intros Hcur Hid; rewrite Hcur; simpl.
  - by apply Z.eqb_neq in Hid as ->.
  - by apply Z.eqb_neq in Hid as ->.
  - by apply Z.eqb_eq in Hid as ->.
  - by apply Z.eqb_eq in Hid as ->.
Qed.


Lemma reset_mismatch_is_noop_witness :
  (resetNextActiveRoute (demo_signal (Some (demo_route 1)) None)
     (Some (demo_route 2))
   = demo_signal (Some (demo_route 1)) None
   /\ resetPreviousActiveRoute (demo_signal None (Some (demo_route 1)))
        (Some (demo_route 2))
      = demo_signal None (Some (demo_route 1)))
  /\ (nextActiveRoute
        (resetNextActiveRoute (demo_signal (Some (demo_route 1)) None)
           (Some (demo_route 1))) = None
      /\ previousActiveRoute
           (resetPreviousActiveRoute (demo_signal None (Some (demo_route 1)))
              (Some (demo_route 1))) = None).
Proof.
  split; split.
  - apply (proj1 (reset_mismatch_is_noop
                    (demo_signal (Some (demo_route 1)) None)
                    (demo_route 2) (demo_route 1))); [reflexivity | simpl; lia].
  - apply (proj1 (proj2 (reset_mismatch_is_noop
                    (demo_signal None (Some (demo_route 1)))
                    (demo_route 2) (demo_route 1)))); [reflexivity | simpl; lia].
  - apply (proj1 (proj2 (proj2 (reset_mismatch_is_noop
                    (demo_signal (Some (demo_route 1)) None)
                    (demo_route 1) (demo_route 1))))); reflexivity.
  - apply (proj2 (proj2 (proj2 (reset_mismatch_is_noop
                    (demo_signal None (Some (demo_route 1)))
                    (demo_route 1) (demo_route 1))))); reflexivity.
Defined.

(** With a nil argument both resets clear their field whatever it holds. *)
Lemma reset_nil_clears si :
  resetNextActiveRoute si None = set_nextActiveRoute si None
  /\ resetPreviousActiveRoute si None = set_previousActiveRoute si None.
Proof. split; reflexivity. Qed.

(** C10: [setActiveRoute], [resetNextActiveRoute] and
    [resetPreviousActiveRoute] leave the active aspect of the signal as it
    was, for every signal and every route argument, [updateSignalState]
    having no effect. *)
Theorem ActiveAspect_unchanged :
  (forall trackStruct_setActiveRoute si r previous,
     ActiveAspect (setActiveRoute trackStruct_setActiveRoute si r previous)
     = ActiveAspect si)
  /\ (forall si r, ActiveAspect (resetNextActiveRoute si r) = ActiveAspect si)
  /\ (forall si r, ActiveAspect (resetPreviousActiveRoute si r) = ActiveAspect si).
Proof.
  split; [| split].
  - reflexivity.
  - intros si r. rewrite resetNextActiveRoute_cases.
    by destruct (refers_to_other r (nextActiveRoute si)).
  - intros si r. rewrite resetPreviousActiveRoute_cases.
    by destruct (refers_to_other r (previousActiveRoute si)).
Qed.

(** ** The standard routes manager *)

Section CanActivate.
Variable sim : Simulation.
Variable r : Route.

Lemma CanActivate_unfold (sm : StandardManager) :
  CanActivate sm sim r = CanActivate_walk sim r false (Positions r).
Proof. reflexivity. Qed.

Lemma walk_nil flag : CanActivate_walk sim r flag [] = Some true.
Proof. reflexivity. Qed.

Lemma walk_boundary flag pos rest ti :
  Position_TrackItem sim pos = Some ti ->
  is_boundary r ti = true ->
  CanActivate_walk sim r flag (pos :: rest) = CanActivate_walk sim r flag rest.
Proof. intros Hti Hb. simpl. rewrite Hti. simpl. by rewrite Hb. Qed.

Lemma walk_conflict flag pos rest ti :
  Position_TrackItem sim pos = Some ti ->
  is_boundary r ti = false ->
  conflict_is_active sim ti = true ->
  CanActivate_walk sim r flag (pos :: rest) = Some false.
Proof. intros Hti Hb Hc. simpl. rewrite Hti. simpl. by rewrite Hb, Hc. Qed.

Lemma walk_free flag pos rest ti :
  Position_TrackItem sim pos = Some ti ->
  is_boundary r ti = false ->
  conflict_is_active sim ti = false ->
  ActiveRoute ti = None ->
  CanActivate_walk sim r flag (pos :: rest) =
  if flag then Some false else CanActivate_walk sim r false rest.
Proof.
  intros Hti Hb Hc Har. simpl. rewrite Hti. simpl. rewrite Hb, Hc, Har.
  by destruct flag.
Qed.

Lemma walk_first_points pos rest ti ar :
  Position_TrackItem sim pos = Some ti ->
  is_boundary r ti = false ->
  ActiveRoute ti = Some ar ->
  ti_Type ti = TypePoints ->
  CanActivate_walk sim r false (pos :: rest) = Some false.
Proof.
  intros Hti Hb Har Hty. simpl. rewrite Hti. simpl. rewrite Hb, Har.
  destruct (conflict_is_active sim ti); [done |].
  by rewrite bool_decide_eq_true_2.
Qed.

Lemma walk_occupied flag pos rest ti ar prev arpi :
  Position_TrackItem sim pos = Some ti ->
  is_boundary r ti = false ->
  conflict_is_active sim ti = false ->
  ActiveRoute ti = Some ar ->
  bool_decide (ti_Type ti = TypePoints) && negb flag = false ->
  Position_PreviousItem sim pos = Some prev ->
  ActiveRoutePreviousItem sim ti = Some arpi ->
  CanActivate_walk sim r flag (pos :: rest) =
  if negb (ti_ID prev =? ti_ID arpi) then Some false
  else if ID ar =? ID r then Some true
  else CanActivate_walk sim r true rest.
Proof.
  intros Hti Hb Hc Har Hpts Hprev Harpi. simpl. rewrite Hti. simpl.
  rewrite Hb, Hc, Har, Hpts, Hprev. simpl. by rewrite Harpi.
Qed.

(** A stretch of positions that are bounding signals or free is walked
    through with the flag still down, unless a conflict item rejects the
    route on the way. *)
Lemma walk_through_free pre rest :
  Forall (boundary_or_free sim r) pre ->
  CanActivate_walk sim r false (pre ++ rest) = Some false
  \/ CanActivate_walk sim r false (pre ++ rest) = CanActivate_walk sim r false rest.
Proof.
  induction 1 as [| pos pre (ti & Hti & Hcase) _ IH]; [by right |].
  rewrite <- app_comm_cons.
  destruct (is_boundary r ti) eqn:Hb.
  - by rewrite (walk_boundary _ _ _ ti).
  - destruct Hcase as [? | Hfree]; [done |].
    destruct (conflict_is_active sim ti) eqn:Hc.
    + left. by apply (walk_conflict _ _ _ ti).
    + by rewrite (walk_free _ _ _ ti).
Qed.

(** Once the walk stands on a non-boundary item that holds a route, with
    the flag down, a points item is rejected. *)
Lemma CanActivate_first_occupied_points (sm : StandardManager) pre pos post ti ar :
  Positions r = pre ++ pos :: post ->
  Forall (boundary_or_free sim r) pre ->
  Position_TrackItem sim pos = Some ti ->
  is_boundary r ti = false ->
  ti_Type ti = TypePoints ->
  ActiveRoute ti = Some ar ->
  CanActivate sm sim r = Some false.
Proof.
  intros Hps Hpre Hti Hb Hty Har. rewrite CanActivate_unfold, Hps.
  destruct (walk_through_free pre (pos :: post) Hpre) as [-> | ->]; [done |].
  by apply (walk_first_points _ _ ti ar).
Qed.

End CanActivate.

(** C2: when the first item of the walk that holds an active route is a
    non-boundary points item holding a route other than [r], [CanActivate]
    rejects [r]. The positions before it have an item that is a bounding
    signal or holds no route. *)
Theorem CanActivate_rejects_first_points
    (sm : StandardManager) sim r pre pos post ti ar :
  Positions r = pre ++ pos :: post ->
  Forall (boundary_or_free sim r) pre ->
  Position_TrackItem sim pos = Some ti ->
  is_boundary r ti = false ->
  ti_Type ti = TypePoints ->
  ActiveRoute ti = Some ar ->
  ID ar <> ID r ->
  CanActivate sm sim r = Some false.
Proof.
  intros Hps Hpre Hti Hb Hty Har _.
  by apply (CanActivate_first_occupied_points sim r sm pre pos post ti ar).
Qed.

(** The walk on the sample states: a free stretch is accepted; a stretch
    shared with another route in the same direction is accepted up to the
    end signal; a free item after a shared one is rejected; a position
    that names no item makes the call panic. *)
Lemma CanActivate_examples :
  CanActivate mkStandardManager sim_free route_1 = Some true
  /\ CanActivate mkStandardManager sim_shared route_1 = Some true
  /\ CanActivate mkStandardManager sim_shared_then_free route_1 = Some false
  /\ CanActivate mkStandardManager stopped_sim route_1 = None.
Proof. repeat split. Qed.

(** *** Re-activation of a route held on all its positions *)



Ltac holds_route_tac :=
  repeat (apply Forall_cons; split;
          [eexists _, _; repeat split |]);
  apply Forall_nil_2.



Lemma fully_active_conflict : fully_active sim_active_conflict route_1.
Proof. unfold fully_active. simpl. holds_route_tac. Qed.



(** It fails as well when the conflict item of the first non-boundary item
    holds a route. *)
Lemma CanActivate_reactivation_conflict_rejected :
  fully_active sim_active_conflict route_1
  /\ CanActivate mkStandardManager sim_active_conflict route_1 = Some false.
Proof. split; [apply fully_active_conflict | reflexivity]. Qed.

Lemma CanActivate_rejects_first_points_witness :
  CanActivate mkStandardManager sim_points_taken route_1 = Some false.
Proof.
  apply (CanActivate_rejects_first_points mkStandardManager sim_points_taken
           route_1 [mkPosition 10 9] (mkPosition 11 10)
           [mkPosition 12 11; mkPosition 20 12]
           (points 11 (Some route_2) (Some 10)) route_2).
  - reflexivity.
  - apply Forall_cons; split; [| apply Forall_nil_2].
    exists (signal 10 None None). split; [reflexivity | left; reflexivity].
  - reflexivity.
  - reflexivity.
  - reflexivity.
  - reflexivity.
  - simpl. lia.
Defined.

(** X25: the same-route test ends the walk: when the first non-boundary
    item holds a route with the ID of [r], entered from the position's
    previous item, is not a points item and has no active conflict item,
    [r] is accepted whatever the positions after it hold. *)
Lemma CanActivate_same_route_short_circuit
    (sm : StandardManager) sim r pre pos post ti ar prev arpi :
  Positions r = pre ++ pos :: post ->
  Forall (fun q => exists b, Position_TrackItem sim q = Some b
                             /\ is_boundary r b = true) pre ->
  Position_TrackItem sim pos = Some ti ->
  is_boundary r ti = false ->
  conflict_is_active sim ti = false ->
  ti_Type ti <> TypePoints ->
  ActiveRoute ti = Some ar ->
  ID ar = ID r ->
  Position_PreviousItem sim pos = Some prev ->
  ActiveRoutePreviousItem sim ti = Some arpi ->
  ti_ID prev = ti_ID arpi ->
  CanActivate sm sim r = Some true.
Proof.
  intros Hps Hpre Hti Hb Hc Hty Har Hid Hprev Harpi Hdir.
  rewrite CanActivate_unfold, Hps. clear Hps.
  induction Hpre as [| q pre (b & Hq & Hqb) _ IH]; simpl app.
  - rewrite (walk_occupied _ _ _ _ _ ti ar prev arpi); try done.
    + apply Z.eqb_eq in Hdir as ->. by apply Z.eqb_eq in Hid as ->.
    + by rewrite bool_decide_eq_false_2.
  - by rewrite (walk_boundary _ _ _ _ _ b).
Qed.

(** *** Opposite directions *)

Section Direction.
Variable sim : Simulation.
Variable r : Route.

(** On a non-boundary item that holds a route entered from another
    neighbour than the position's, the walk rejects, flag up or down. *)
Lemma walk_opposite flag pos rest ti ar prev arpi :
  Position_TrackItem sim pos = Some ti ->
  is_boundary r ti = false ->
  ActiveRoute ti = Some ar ->
  Position_PreviousItem sim pos = Some prev ->
  ActiveRoutePreviousItem sim ti = Some arpi ->
  ti_ID prev <> ti_ID arpi ->
  CanActivate_walk sim r flag (pos :: rest) = Some false.
Proof.
  intros Hti Hb Har Hprev Harpi Hne.
  destruct (conflict_is_active sim ti) eqn:Hc;
    [by apply (walk_conflict _ _ _ _ _ ti) |].
  destruct (bool_decide (ti_Type ti = TypePoints) && negb flag) eqn:Hpts.
  - simpl. rewrite Hti. simpl. by rewrite Hb, Hc, Har, Hpts.
  - rewrite (walk_occupied _ _ _ _ _ ti ar prev arpi) by done.
    by apply Z.eqb_neq in Hne as ->.
Qed.

(** Positions that are well linked and not held by [r] itself never make
    the walk accept early, nor panic: it rejects on the way or goes on with
    the positions that follow. *)
Lemma walk_through_others flag pre rest :
  Forall (well_linked sim) pre ->
  Forall (not_held_by sim r) pre ->
  CanActivate_walk sim r flag (pre ++ rest) = Some false
  \/ exists flag',
       CanActivate_walk sim r flag (pre ++ rest) = CanActivate_walk sim r flag' rest.
Proof.
  intros Hwl. revert flag.
  induction Hwl as [| pos pre (ti & Hti & [prev Hprev] & Hrec) _ IH];
    intros flag Hnh; [right; by exists flag |].
  apply Forall_cons in Hnh as [Hpos Hnh]. rewrite <- app_comm_cons.
  destruct (is_boundary r ti) eqn:Hb.
  { rewrite (walk_boundary _ _ _ _ _ ti) by done. by apply IH. }
  destruct (conflict_is_active sim ti) eqn:Hc.
  { left. by apply (walk_conflict _ _ _ _ _ ti). }
  destruct (ActiveRoute ti) as [ar |] eqn:Har.
  - destruct (Hrec ltac:(eauto)) as [arpi Harpi].
    destruct (bool_decide (ti_Type ti = TypePoints) && negb flag) eqn:Hpts.
    { left. simpl. rewrite Hti. simpl. by rewrite Hb, Hc, Har, Hpts. }
    rewrite (walk_occupied _ _ _ _ _ ti ar prev arpi) by done.
    destruct (negb (ti_ID prev =? ti_ID arpi)); [by left |].
    specialize (Hpos ti ar Hti Hb Har).
    apply Z.eqb_neq in Hpos as ->. by apply IH.
  - rewrite (walk_free _ _ _ _ _ ti) by done.
    destruct flag; [by left | by apply IH].
Qed.

End Direction.


(** So a route that no item of its own positions holds yet is accepted
    only if it enters each occupied non-boundary item from the neighbour
    recorded there. *)
Corollary CanActivate_accepts_same_direction
    (sm : StandardManager) sim r pos ti ar prev arpi :
  CanActivate sm sim r = Some true ->
  Forall (well_linked sim) (Positions r) ->
  Forall (not_held_by sim r) (Positions r) ->
  pos ∈ Positions r ->
  Position_TrackItem sim pos = Some ti ->
  is_boundary r ti = false ->
  ActiveRoute ti = Some ar ->
  Position_PreviousItem sim pos = Some prev ->
  ActiveRoutePreviousItem sim ti = Some arpi ->
  ti_ID prev = ti_ID arpi.
Proof.
  intros Hacc Hwl Hnh Hin Hti Hb Har Hprev Harpi.
  destruct (decide (ti_ID prev = ti_ID arpi)) as [| Hne]; [done |].
  apply list_elem_of_split in Hin as (pre & post & Hps).
  rewrite Hps in Hwl, Hnh.
  apply Forall_app in Hwl as [Hwl _]. apply Forall_app in Hnh as [Hnh _].
  rewrite CanActivate_unfold, Hps in Hacc.
  destruct (walk_through_others sim r false pre (pos :: post) Hwl Hnh)
    as [Hrej | [flag' Hgo]]; [by rewrite Hrej in Hacc |].
  rewrite Hgo in Hacc.
  by rewrite (walk_opposite sim r flag' pos post ti ar prev arpi) in Hacc.
Qed.



(** *** Deactivation *)

(** C8: the standard manager allows the deactivation of every route,
    whatever the state of the simulation and of the route. *)
Theorem CanDeactivate_always_true (sm : StandardManager) (r : RoutePtr) :
  CanDeactivate sm r = true.
Proof. reflexivity. Qed.

Lemma StandardManager_Name (sm : StandardManager) :
  Name sm = "Standard Manager"%string.
Proof. reflexivity. Qed.

(** ** The loader *)

Lemma Atoi_examples :
  Atoi "12" = inl 12 /\ Atoi "-7" = inl (-7) /\ Atoi "+05" = inl 5
  /\ Atoi "abc" = inr ErrSyntax /\ Atoi EmptyString = inr ErrSyntax
  /\ Atoi "1_0" = inr ErrSyntax
  /\ Atoi "9223372036854775807" = inl max_int
  /\ Atoi "9223372036854775808" = inr ErrRange.
Proof. repeat split. Qed.

Lemma Trim_examples :
  Trim (quoted "12") (String dquote EmptyString) = "12"%string
  /\ Trim "abc" (String dquote EmptyString) = "abc"%string.
Proof. split; reflexivity. Qed.

(** The switch of the loader, by the type tag of the message. *)
Lemma load_TrackItem_unknown sim tiId raw tag :
  type_tag raw = Some tag ->
  tag ∉ item_tags ->
  tag <> quoted "Place" ->
  load_TrackItem sim tiId raw = (sim, Errorf ("Unknown TrackItem type: " +:+ tag)).
Proof.
  unfold type_tag, load_TrackItem.
  destruct (raw_fields raw) as [rawItem | err]; [| done].
  intros [= <-] Hitem Hplace.
  set (tag := default EmptyString (rawItem !! "__type__"%string)) in *.
  unfold item_tags in Hitem.
  rewrite !not_elem_of_cons in Hitem.
  destruct Hitem as (H1 & H2 & H3 & H4 & H5 & H6 & H7 & _).
  apply String.eqb_neq in H1, H2, H3, H4, H5, H6, H7, Hplace.
  by rewrite H1, H2, H3, H4, H5, H6, H7, Hplace.
Qed.

Lemma load_TrackItem_item sim tiId raw tag :
  type_tag raw = Some tag ->
  tag ∈ item_tags ->
  exists ty,
    load_TrackItem sim tiId raw = ((unmarshalItem sim tiId tag raw ty).1, nil_error).
Proof.
  unfold type_tag, load_TrackItem.
  destruct (raw_fields raw) as [rawItem | err]; [| done].
  intros [= <-] Hitem.
  set (tag := default EmptyString (rawItem !! "__type__"%string)) in *.
  unfold item_tags in Hitem.
  repeat (apply elem_of_cons in Hitem as [-> | Hitem]; [by eexists |]).
  by apply elem_of_nil in Hitem.
Qed.


Lemma unmarshalItem_malformed_key sim tiId tiType raw ty :
  malformed_key tiId ->
  (unmarshalItem sim tiId tiType raw ty).1 = sim
  /\ is_Some (unmarshalItem sim tiId tiType raw ty).2.
Proof.
  intros [e He]. unfold unmarshalItem.
  destruct (raw_item raw ty); [| by eauto].
  rewrite He. simpl. eauto.
Qed.

(** An item whose key is not a number is left out and no error is
    returned for it. *)
Lemma load_TrackItem_malformed_key sim tiId raw tag :
  type_tag raw = Some tag ->
  tag ∈ item_tags ->
  malformed_key tiId ->
  load_TrackItem sim tiId raw = (sim, nil_error).
Proof.
  intros Htag Hitem Hkey.
  destruct (load_TrackItem_item sim tiId raw tag Htag Hitem) as [ty ->].
  by destruct (unmarshalItem_malformed_key sim tiId tag raw ty Hkey) as [-> _].
Qed.

Lemma load_TrackItems_unknown sim items :
  Exists (fun entry => unknown_type entry.2) items ->
  is_Some (load_TrackItems sim items).2.
Proof.
  intros Hex. revert sim.
  induction Hex as [[tiId raw] rest (tag & Htag & Hitem & Hplace)
                   | [tiId raw] rest _ IH]; intros sim; simpl.
  - rewrite (load_TrackItem_unknown sim tiId raw tag) by done. simpl. eauto.
  - destruct (load_TrackItem sim tiId raw) as [sim' [msg |]]; simpl; eauto.
Qed.

(** A document with a track item of unknown type is refused with an
    error, wherever the item stands in the iteration. *)
Lemma UnmarshalJSON_unknown_type sim rawSim :
  Exists (fun entry => unknown_type entry.2) (aux_TrackItems rawSim) ->
  is_Some (UnmarshalJSON sim (Decoded rawSim)).2.
Proof.
  intros Hex. unfold UnmarshalJSON.
  destruct (load_TrackItems_unknown
              (set_Places (set_TrackItems sim ∅) ∅) _ Hex) as [msg Hmsg].
  destruct (load_TrackItems _ _) as [sim' err]. simpl in Hmsg. subst err.
  simpl. eauto.
Qed.

Lemma UnmarshalJSON_unknown_type_example :
  (UnmarshalJSON stopped_sim (Decoded doc_unknown_type)).2
  = Errorf ("Unknown TrackItem type: " +:+ quoted "TramItem").
Proof. reflexivity. Qed.

(** C4 fails on a malformed key: the document whose only track item, a
    LineItem, has the key [abc] loads without error, and the item is left
    out of the simulation. *)
Theorem UnmarshalJSON_malformed_key_no_error :
  malformed_key "abc"
  /\ type_tag raw_line = Some (quoted "LineItem")
  /\ (UnmarshalJSON stopped_sim (Decoded doc_bad_key)).2 = nil_error
  /\ TrackItems (UnmarshalJSON stopped_sim (Decoded doc_bad_key)).1 = ∅.
Proof.
  split; [by exists ErrSyntax |]. by repeat split.
Qed.

(** ** The clock *)

Lemma TIME_STEP_ns : TIME_STEP = 500000000.
Proof. reflexivity. Qed.

Lemma Start_running sim stop event :
  is_Some (clockTicker sim) -> Start sim stop event = (sim, []).
Proof. unfold Start. by intros [t ->]. Qed.

Lemma Start_stopped sim stop event :
  clockTicker sim = None ->
  Start sim stop event =
  (set_clock sim (Some (NewTicker TIME_STEP)) (Some stop) (Some event),
   [go_run; logger_Info "Simulation started"]).
Proof. unfold Start. by intros ->. Qed.

Lemma Start_is_running sim stop event :
  is_Some (clockTicker (Start sim stop event).1).
Proof.
  destruct (clockTicker sim) as [t |] eqn:Ht.
  - rewrite Start_running by eauto. simpl. rewrite Ht. eauto.
  - rewrite Start_stopped by done. simpl. eauto.
Qed.

Lemma Start_CurrentTime sim stop event :
  Options (Start sim stop event).1 = Options sim.
Proof. unfold Start. by destruct (clockTicker sim). Qed.

(** C9: [Start] on a running simulation (its clock ticker exists) changes
    nothing and spawns nothing, so a second [Start] is absorbed; on a
    stopped simulation it creates the ticker and the two channels and
    spawns the loop, leaving the model state as it was. *)
Theorem Start_idempotent :
  (forall sim stop event,
     is_Some (clockTicker sim) -> Start sim stop event = (sim, []))
  /\ (forall sim stop event stop' event',
        Start (Start sim stop event).1 stop' event'
        = ((Start sim stop event).1, []))
  /\ (forall sim stop event,
        clockTicker sim = None ->
        let sim' := (Start sim stop event).1 in
        clockTicker sim' = Some (NewTicker TIME_STEP)
        /\ stopChan sim' = Some stop /\ EventChan sim' = Some event
        /\ go_run ∈ (Start sim stop event).2
        /\ set_clock sim' (clockTicker sim) (stopChan sim) (EventChan sim) = sim).
Proof.
  split; [| split].
  - apply Start_running.
  - intros. apply Start_running, Start_is_running.
  - intros sim stop event Hnil. rewrite Start_stopped by done. simpl.
    repeat split; [set_solver |]. by destruct sim.
Qed.


Lemma Start_idempotent_witness :
  Start running_sim 3 4 = (running_sim, [])
  /\ clockTicker (Start stopped_sim 1 2).1 = Some (NewTicker TIME_STEP).
Proof.
  split.
  - apply (proj1 Start_idempotent running_sim 3 4). vm_compute. eauto.
  - apply (proj2 (proj2 Start_idempotent) stopped_sim 1 2). reflexivity.
Defined.

Lemma run_unfold sim trace :
  run sim trace =
  ticker ← clockTicker sim;
  match trace with
  | [] => Return (sim, [])
  | stop_requested :: _ =>
      Return (set_clock sim None (stopChan sim) None,
              [Ticker_Stop ticker; logger_Info "Simulation paused"])
  | tick_due :: rest =>
      let now := Time_Add (CurrentTime (Options sim)) TIME_STEP in
      let sim := set_Options sim (mkOptions now) in
      '(sim', effs) ← run sim rest;
      Return (sim', go_send_EventChan (mkEvent CLOCK CurrentTime_ptr) :: effs)
  end.
Proof. by destruct trace. Qed.

(** A running loop never panics: the ticker stays in place until the loop
    returns. *)
Lemma run_returns sim trace :
  is_Some (clockTicker sim) -> is_Some (run sim trace).
Proof.
  revert sim. induction trace as [| c rest IH]; intros sim [t Ht];
    rewrite run_unfold, Ht; simpl.
  - eauto.
  - destruct c; [eauto |].
    destruct (IH (set_Options sim
                    (mkOptions (Time_Add (CurrentTime (Options sim)) TIME_STEP))))
      as [[sim' effs] Hrun].
    + simpl. rewrite Ht. eauto.
    + rewrite Hrun. simpl. eauto.
Qed.

(** The loop moves the time by one step per tick it takes, and by nothing
    else. *)
Lemma run_CurrentTime sim trace sim' effs :
  run sim trace = Some (sim', effs) ->
  CurrentTime (Options sim')
  = CurrentTime (Options sim) + Z.of_nat (ticks_of trace) * TIME_STEP.
Proof.
  revert sim sim' effs. induction trace as [| c rest IH]; intros sim sim' effs;
    rewrite run_unfold; destruct (clockTicker sim) as [t |]; simpl; try done.
  - intros [= <- <-]. lia.
  - destruct c.
    + intros [= <- <-]. simpl. lia.
    + destruct (run _ rest) as [[sim1 effs1] |] eqn:Hrun; simpl; [| done].
      intros [= <- <-]. apply IH in Hrun. simpl in Hrun.
      rewrite Hrun. unfold Time_Add. lia.
Qed.

(** One clock event is handed off per tick. *)
Lemma run_events n sim sim' effs :
  run sim (repeat tick_due n) = Some (sim', effs) ->
  effs = repeat (go_send_EventChan (mkEvent CLOCK CurrentTime_ptr)) n.
Proof.
  revert sim sim' effs. induction n as [| n IH]; intros sim sim' effs;
    rewrite run_unfold; destruct (clockTicker sim) as [t |]; simpl; try done.
  - by intros [= <- <-].
  - destruct (run _ (repeat tick_due n)) as [[sim1 effs1] |] eqn:Hrun;
      simpl; [| done].
    intros [= <- <-]. f_equal. by eapply IH.
Qed.

Lemma ticks_of_repeat n : ticks_of (repeat tick_due n) = n.
Proof. induction n; simpl; congruence. Qed.

Lemma clock_step_CurrentTime sim sim' :
  clock_step sim sim' ->
  exists k : nat,
    CurrentTime (Options sim') = CurrentTime (Options sim) + Z.of_nat k * TIME_STEP.
Proof.
  destruct 1 as [sim stop event | sim trace sim' effs Hrun].
  - exists O. rewrite Start_CurrentTime. simpl. lia.
  - exists (ticks_of trace). by eapply run_CurrentTime.
Qed.

(** C6: the step is 500 ms; N ticks of a started clock move CurrentTime to
    the start time plus N steps; and along any sequence of starts and
    loop runs CurrentTime is the start time plus a whole number of
    steps. *)
Theorem CurrentTime_multiple_of_TIME_STEP :
  TIME_STEP = 500 * Millisecond
  /\ Millisecond = 1000000 * Nanosecond
  /\ (forall sim (n : nat),
        is_Some (clockTicker sim) ->
        exists sim' effs,
          run sim (repeat tick_due n) = Some (sim', effs)
          /\ CurrentTime (Options sim')
             = CurrentTime (Options sim) + Z.of_nat n * (500 * Millisecond))
  /\ (forall sim sim',
        rtc clock_step sim sim' ->
        exists k : nat,
          CurrentTime (Options sim')
          = CurrentTime (Options sim) + Z.of_nat k * TIME_STEP).
Proof.
  split; [reflexivity |]. split; [reflexivity |]. split.
  - intros sim n Hticker.
    destruct (run_returns sim (repeat tick_due n) Hticker) as [[sim' effs] Hrun].
    exists sim', effs. split; [done |].
    apply run_CurrentTime in Hrun. by rewrite ticks_of_repeat in Hrun.
  - induction 1 as [sim | sim sim1 sim2 Hstep _ [k Hk]].
    + exists O. lia.
    + destruct (clock_step_CurrentTime _ _ Hstep) as [j Hj].
      exists (j + k)%nat. rewrite Hk, Hj. lia.
Qed.

Lemma CurrentTime_multiple_of_TIME_STEP_witness :
  (exists sim' effs,
     run running_sim (repeat tick_due 3) = Some (sim', effs)
     /\ CurrentTime (Options sim')
        = CurrentTime (Options running_sim) + Z.of_nat 3 * (500 * Millisecond))
  /\ (exists k : nat,
        CurrentTime (Options running_sim)
        = CurrentTime (Options stopped_sim) + Z.of_nat k * TIME_STEP).
Proof.
  split.
  - apply (proj1 (proj2 (proj2 CurrentTime_multiple_of_TIME_STEP)) running_sim 3%nat).
    vm_compute. eauto.
  - apply (proj2 (proj2 (proj2 CurrentTime_multiple_of_TIME_STEP))
             stopped_sim running_sim).
    apply rtc_once. apply (step_Start stopped_sim 1 2).
Defined.

(** * Further properties *)

(** ** The walk of the standard routes manager *)

Section Walk.
Variable sim : Simulation.
Variable r : Route.

Lemma walk_clear flag ps :
  flag = false ->
  Forall (boundary_or_clear sim r) ps ->
  CanActivate_walk sim r flag ps = Some true.
Proof.
  intros ->. induction 1 as [| pos rest (ti & Hti & Hcase) _ IH]; [done |].
  destruct (is_boundary r ti) eqn:Hb.
  - by rewrite (walk_boundary _ _ _ _ _ ti).
  - destruct Hcase as [? | [Hfree Hc]]; [done |].
    by rewrite (walk_free _ _ _ _ _ ti).
Qed.

(** One well linked position whose item is held by another route: the walk
    rejects there or goes on with the flag up. *)
Lemma walk_step_other flag pos rest ti ar :
  well_linked sim pos ->
  not_held_by sim r pos ->
  Position_TrackItem sim pos = Some ti ->
  is_boundary r ti = false ->
  ActiveRoute ti = Some ar ->
  CanActivate_walk sim r flag (pos :: rest) = Some false
  \/ CanActivate_walk sim r flag (pos :: rest) = CanActivate_walk sim r true rest.
Proof.
  intros (ti' & Hti' & [prev Hprev] & Hrec) Hnh Hti Hb Har.
  rewrite Hti in Hti'. injection Hti' as <-.
  destruct (Hrec ltac:(eauto)) as [arpi Harpi].
  destruct (conflict_is_active sim ti) eqn:Hc.
  { left. by apply (walk_conflict _ _ _ _ _ ti). }
  destruct (bool_decide (ti_Type ti = TypePoints) && negb flag) eqn:Hpts.
  { left. simpl. rewrite Hti. simpl. by rewrite Hb, Hc, Har, Hpts. }
  rewrite (walk_occupied _ _ _ _ _ ti ar prev arpi) by done.
  destruct (negb (ti_ID prev =? ti_ID arpi)); [by left |].
  specialize (Hnh ti ar Hti Hb Har). apply Z.eqb_neq in Hnh as ->. by right.
Qed.

(** With the flag up, positions that are well linked and not held by [r]
    keep it up. *)
Lemma walk_through_others_up pre rest :
  Forall (well_linked sim) pre ->
  Forall (not_held_by sim r) pre ->
  CanActivate_walk sim r true (pre ++ rest) = Some false
  \/ CanActivate_walk sim r true (pre ++ rest) = CanActivate_walk sim r true rest.
Proof.
  induction 1 as [| pos pre Hwl _ IH]; intros Hnh; [by right |].
  apply Forall_cons in Hnh as [Hpos Hnh]. rewrite <- app_comm_cons.
  destruct Hwl as (ti & Hti & Hprev & Hrec).
  destruct (is_boundary r ti) eqn:Hb.
  { rewrite (walk_boundary _ _ _ _ _ ti) by done. by apply IH. }
  destruct (ActiveRoute ti) as [ar |] eqn:Har.
  - assert (Hwl : well_linked sim pos) by (exists ti; auto).
    destruct (walk_step_other true pos (pre ++ rest) ti ar Hwl Hpos Hti Hb Har)
      as [-> | ->]; [by left | by apply IH].
  - destruct (conflict_is_active sim ti) eqn:Hc.
    + left. by apply (walk_conflict _ _ _ _ _ ti).
    + left. by rewrite (walk_free _ _ _ _ _ ti).
Qed.

(** With the flag up, a non-boundary item that holds no route is
    rejected. *)
Lemma walk_free_flag_up pos rest ti :
  Position_TrackItem sim pos = Some ti ->
  is_boundary r ti = false ->
  ActiveRoute ti = None ->
  CanActivate_walk sim r true (pos :: rest) = Some false.
Proof.
  intros Hti Hb Har.
  destruct (conflict_is_active sim ti) eqn:Hc.
  - by apply (walk_conflict _ _ _ _ _ ti).
  - by rewrite (walk_free _ _ _ _ _ ti).
Qed.

Lemma walk_well_linked flag ps :
  Forall (well_linked sim) ps -> is_Some (CanActivate_walk sim r flag ps).
Proof.
  intros Hwl. revert flag.
  induction Hwl as [| pos rest (ti & Hti & [prev Hprev] & Hrec) _ IH];
    intros flag; [by eexists |].
  destruct (is_boundary r ti) eqn:Hb.
  { by rewrite (walk_boundary _ _ _ _ _ ti). }
  destruct (conflict_is_active sim ti) eqn:Hc.
  { rewrite (walk_conflict _ _ _ _ _ ti) by done. by eexists. }
  destruct (ActiveRoute ti) as [ar |] eqn:Har.
  - destruct (Hrec ltac:(eauto)) as [arpi Harpi].
    destruct (bool_decide (ti_Type ti = TypePoints) && negb flag) eqn:Hpts.
    { simpl. rewrite Hti. simpl. rewrite Hb, Hc, Har, Hpts. by eexists. }
    rewrite (walk_occupied _ _ _ _ _ ti ar prev arpi) by done.
    destruct (negb (ti_ID prev =? ti_ID arpi)); [by eexists |].
    destruct (ID ar =? ID r); [by eexists | apply IH].
  - rewrite (walk_free _ _ _ _ _ ti) by done.
    destruct flag; [by eexists | apply IH].
Qed.

Lemma walk_missing_item flag pos rest :
  Position_TrackItem sim pos = None ->
  CanActivate_walk sim r flag (pos :: rest) = None.
Proof. intros Hti. simpl. by rewrite Hti. Qed.

End Walk.

(** The walk reads the simulation through its track items only. *)
Lemma walk_TrackItems sim sim' r flag ps :
  TrackItems sim = TrackItems sim' ->
  CanActivate_walk sim r flag ps = CanActivate_walk sim' r flag ps.
Proof.
  intros Heq. revert flag. induction ps as [| pos rest IH]; intros flag; [done |].
  simpl.
  unfold Position_TrackItem, Position_PreviousItem, conflict_is_active,
    ConflictItem, ActiveRoutePreviousItem.
  rewrite <- Heq.
  destruct (TrackItems sim !! TrackItemID pos) as [ti |]; simpl; [| done].
  rewrite !IH. done.
Qed.

Ltac well_linked_tac :=
  repeat (apply Forall_cons; split;
          [eexists; split; [reflexivity |];
           split; [eexists; reflexivity |];
           first [by intros [? ?] | intros _; eexists; reflexivity] |]);
  apply Forall_nil_2.

Ltac not_held_by_tac :=
  repeat (apply Forall_cons; split;
          [let Hti := fresh in let Hb := fresh in let Har := fresh in
           intros ? ? Hti Hb Har; vm_compute in Hti; injection Hti as <-;
           vm_compute in Hb, Har;
           first [discriminate Hb | discriminate Har
                 | injection Har as <-; vm_compute; lia] |]);
  apply Forall_nil_2.

(** X1: a route is accepted when each of its positions names an item that
    is one of its bounding signals, or holds no route and has no conflict
    item holding one. *)
Theorem CanActivate_clear_route (sm : StandardManager) sim r :
  Forall (boundary_or_clear sim r) (Positions r) ->
  CanActivate sm sim r = Some true.
Proof. intros Hclear. rewrite CanActivate_unfold. by apply walk_clear. Qed.

Lemma CanActivate_clear_route_witness :
  CanActivate mkStandardManager sim_free route_1 = Some true.
Proof.
  apply (CanActivate_clear_route mkStandardManager sim_free route_1).
  simpl.
  repeat (apply Forall_cons; split;
          [eexists; split; [reflexivity |];
           first [left; reflexivity | right; split; reflexivity] |]).
  apply Forall_nil_2.
Defined.

(** X2: a route is rejected when a non-boundary item reached by the walk
    has a conflict item that holds a route. *)
Theorem CanActivate_rejects_active_conflict
    (sm : StandardManager) sim r pre pos post ti :
  Positions r = pre ++ pos :: post ->
  Forall (well_linked sim) pre ->
  Forall (not_held_by sim r) pre ->
  Position_TrackItem sim pos = Some ti ->
  is_boundary r ti = false ->
  conflict_is_active sim ti = true ->
  CanActivate sm sim r = Some false.
Proof.
  intros Hps Hwl Hnh Hti Hb Hc. rewrite CanActivate_unfold, Hps.
  destruct (walk_through_others sim r false pre (pos :: post) Hwl Hnh)
    as [-> | [flag' ->]]; [done |].
  by apply (walk_conflict _ _ _ _ _ ti).
Qed.

Lemma CanActivate_rejects_active_conflict_witness :
  CanActivate mkStandardManager sim_active_conflict route_1 = Some false.
Proof.
  apply (CanActivate_rejects_active_conflict mkStandardManager
           sim_active_conflict route_1 [mkPosition 10 9] (mkPosition 11 10)
           [mkPosition 12 11; mkPosition 20 12]
           (line 11 (Some 13) (Some route_1) (Some 10))).
  - reflexivity.
  - well_linked_tac.
  - not_held_by_tac.
  - reflexivity.
  - reflexivity.
  - reflexivity.
Defined.

(** X3: once the walk has met a non-boundary item held by another route, a
    later non-boundary item that holds no route makes it reject: the route
    shares track with an active route without ending where it ends. *)
Theorem CanActivate_rejects_free_after_shared
    (sm : StandardManager) sim r pre p mid q post tp ar tq :
  Positions r = pre ++ p :: mid ++ q :: post ->
  Forall (well_linked sim) (pre ++ p :: mid) ->
  Forall (not_held_by sim r) (pre ++ p :: mid) ->
  Position_TrackItem sim p = Some tp ->
  is_boundary r tp = false ->
  ActiveRoute tp = Some ar ->
  Position_TrackItem sim q = Some tq ->
  is_boundary r tq = false ->
  ActiveRoute tq = None ->
  CanActivate sm sim r = Some false.
Proof.
  intros Hps Hwl Hnh Htp Hbp Har Htq Hbq Hfree.
  apply Forall_app in Hwl as [Hwl_pre Hwl]. apply Forall_cons in Hwl as [Hwl_p Hwl_mid].
  apply Forall_app in Hnh as [Hnh_pre Hnh]. apply Forall_cons in Hnh as [Hnh_p Hnh_mid].
  rewrite CanActivate_unfold, Hps.
  destruct (walk_through_others sim r false pre (p :: mid ++ q :: post)
              Hwl_pre Hnh_pre) as [-> | [flag' ->]]; [done |].
  destruct (walk_step_other sim r flag' p (mid ++ q :: post) tp ar
              Hwl_p Hnh_p Htp Hbp Har) as [-> | ->]; [done |].
  destruct (walk_through_others_up sim r mid (q :: post) Hwl_mid Hnh_mid)
    as [-> | ->]; [done |].
  by apply (walk_free_flag_up sim r q post tq).
Qed.

Lemma CanActivate_rejects_free_after_shared_witness :
  CanActivate mkStandardManager sim_shared_then_free route_1 = Some false.
Proof.
  apply (CanActivate_rejects_free_after_shared mkStandardManager
           sim_shared_then_free route_1 [mkPosition 10 9] (mkPosition 11 10) []
           (mkPosition 12 11) [mkPosition 20 12]
           (line 11 None (Some route_2) (Some 10)) route_2
           (line 12 None None None)).
  - reflexivity.
  - simpl. well_linked_tac.
  - simpl. not_held_by_tac.
  - reflexivity.
  - reflexivity.
  - reflexivity.
  - reflexivity.
  - reflexivity.
  - reflexivity.
Defined.

(** X4: the call returns an answer, without a nil dereference, when every
    position of the route names an item and a previous item of the
    simulation and each item that holds a route has its entry neighbour
    recorded. *)
Theorem CanActivate_returns (sm : StandardManager) sim r :
  Forall (well_linked sim) (Positions r) ->
  is_Some (CanActivate sm sim r).
Proof. intros Hwl. rewrite CanActivate_unfold. by apply walk_well_linked. Qed.

Lemma CanActivate_returns_witness :
  is_Some (CanActivate mkStandardManager sim_shared route_1).
Proof.
  apply (CanActivate_returns mkStandardManager sim_shared route_1).
  simpl. well_linked_tac.
Defined.

(** X5: a route with a position that names no item of the simulation is
    never accepted when the positions before it are bounding signals or
    free: the call is rejected by a conflict item on the way or panics. *)
Theorem CanActivate_missing_item (sm : StandardManager) sim r pre pos post :
  Positions r = pre ++ pos :: post ->
  Forall (boundary_or_free sim r) pre ->
  Position_TrackItem sim pos = None ->
  CanActivate sm sim r = Some false \/ CanActivate sm sim r = None.
Proof.
  intros Hps Hpre Hnone. rewrite CanActivate_unfold, Hps.
  destruct (walk_through_free sim r pre (pos :: post) Hpre) as [-> | ->];
    [by left | right].
  by apply walk_missing_item.
Qed.

Lemma CanActivate_missing_item_witness :
  CanActivate mkStandardManager stopped_sim route_1 = Some false
  \/ CanActivate mkStandardManager stopped_sim route_1 = None.
Proof.
  apply (CanActivate_missing_item mkStandardManager stopped_sim route_1 []
           (mkPosition 10 9) [mkPosition 11 10; mkPosition 12 11; mkPosition 20 12]).
  - reflexivity.
  - apply Forall_nil_2.
  - reflexivity.
Defined.

(** ** The clock loop *)

Lemma set_Options_twice sim o o' :
  set_Options (set_Options sim o) o' = set_Options sim o'.
Proof. reflexivity. Qed.

Lemma set_Options_same sim : set_Options sim (Options sim) = sim.
Proof. by destruct sim. Qed.

Lemma run_tick sim t rest :
  clockTicker sim = Some t ->
  run sim (tick_due :: rest) =
  '(sim', effs) ← run (set_Options sim
                         (mkOptions (Time_Add (CurrentTime (Options sim)) TIME_STEP)))
                      rest;
  Some (sim', go_send_EventChan (mkEvent CLOCK CurrentTime_ptr) :: effs).
Proof. intros Ht. rewrite run_unfold, Ht. reflexivity. Qed.

Lemma run_no_ticker sim trace : clockTicker sim = None -> run sim trace = None.
Proof. intros Ht. by rewrite run_unfold, Ht. Qed.

(** What the loop leaves untouched. *)
Lemma run_frame sim trace sim' effs :
  run sim trace = Some (sim', effs) ->
  sim' = set_clock (set_Options sim (Options sim')) (clockTicker sim')
           (stopChan sim) (EventChan sim').
Proof.
  revert sim sim' effs. induction trace as [| c rest IH]; intros sim sim' effs;
    rewrite run_unfold; destruct (clockTicker sim) as [t |] eqn:Ht; simpl; try done.
  - intros [= <- <-]. by destruct sim.
  - destruct c.
    + by intros [= <- <-].
    + destruct (run _ rest) as [[sim1 effs1] |] eqn:Hrun; simpl; [| done].
      intros [= <- <-]. apply IH in Hrun. by rewrite Hrun at 1.
Qed.

Lemma clock_step_TrackItems sim sim' :
  clock_step sim sim' -> TrackItems sim' = TrackItems sim.
Proof.
  destruct 1 as [sim stop event | sim trace sim' effs Hrun].
  - unfold Start. by destruct (clockTicker sim).
  - apply run_frame in Hrun. by rewrite Hrun.
Qed.

(** X6: the clock does not change what the routes manager answers: after
    any sequence of starts and loop runs [CanActivate] gives for every
    route the answer it gave before. *)
Theorem CanActivate_unchanged_by_clock (sm : StandardManager) sim sim' r :
  rtc clock_step sim sim' ->
  CanActivate sm sim' r = CanActivate sm sim r.
Proof.
  intros Hsteps. rewrite !CanActivate_unfold.
  apply walk_TrackItems.
  induction Hsteps as [sim | sim sim1 sim2 Hstep _ IH]; [done |].
  rewrite IH. by apply clock_step_TrackItems.
Qed.

(** X7: the loop changes nothing but the current time, the ticker and the
    event channel: track items, places, routes, signal library, trains,
    services, message logger and stop channel are those it started
    with. *)
Theorem run_changes_clock_only sim trace sim' effs :
  run sim trace = Some (sim', effs) ->
  sim' = set_clock (set_Options sim (Options sim')) (clockTicker sim')
           (stopChan sim) (EventChan sim').
Proof. apply run_frame. Qed.

(** X8: the loop returns an outcome exactly when the simulation has a
    ticker; on a simulation that was never started, or whose loop has
    returned, it panics whatever the trace. *)
Theorem run_returns_iff_ticker sim trace :
  is_Some (run sim trace) <-> is_Some (clockTicker sim).
Proof.
  split; [| apply run_returns].
  destruct (clockTicker sim) as [t |] eqn:Ht; [by eauto |].
  rewrite run_no_ticker by done. by intros [? ?].
Qed.

(** The loop over N ticks and a stop request. *)
Lemma run_ticks_then_stop sim t (n : nat) rest :
  clockTicker sim = Some t ->
  run sim (repeat tick_due n ++ stop_requested :: rest) =
  Some (set_clock
          (set_Options sim
             (mkOptions (CurrentTime (Options sim) + Z.of_nat n * TIME_STEP)))
          None (stopChan sim) None,
        repeat (go_send_EventChan (mkEvent CLOCK CurrentTime_ptr)) n
        ++ [Ticker_Stop t; logger_Info "Simulation paused"]).
Proof.
  revert sim. induction n as [| n IH]; intros sim Ht.
  - simpl repeat. simpl app. rewrite run_unfold, Ht. simpl.
    replace (CurrentTime (Options sim) + Z.of_nat 0 * TIME_STEP)
      with (CurrentTime (Options sim)) by lia.
    by destruct sim as [? ? ? [?] ? ? ? ? ? ? ? ?].
  - simpl repeat. rewrite <- app_comm_cons, (run_tick sim t) by done.
    rewrite IH by done. simpl. unfold Time_Add. do 3 f_equal.
    rewrite set_Options_twice. do 2 f_equal. lia.
Qed.

(** X9: N ticks followed by a stop request: the time has moved by N steps,
    N clock events were handed off, the ticker is stopped and removed, the
    event channel is removed, the stop channel is kept, and whatever
    follows the stop request in the trace is not looked at. *)
Theorem run_until_stop sim t (n : nat) rest :
  clockTicker sim = Some t ->
  run sim (repeat tick_due n ++ stop_requested :: rest) =
  Some (set_clock
          (set_Options sim
             (mkOptions (CurrentTime (Options sim) + Z.of_nat n * TIME_STEP)))
          None (stopChan sim) None,
        repeat (go_send_EventChan (mkEvent CLOCK CurrentTime_ptr)) n
        ++ [Ticker_Stop t; logger_Info "Simulation paused"]).
Proof. apply run_ticks_then_stop. Qed.

Lemma run_until_stop_witness :
  run running_sim (repeat tick_due 2 ++ [stop_requested; tick_due]) =
  Some (set_clock
          (set_Options running_sim
             (mkOptions (CurrentTime (Options running_sim)
                         + Z.of_nat 2 * TIME_STEP)))
          None (stopChan running_sim) None,
        repeat (go_send_EventChan (mkEvent CLOCK CurrentTime_ptr)) 2
        ++ [Ticker_Stop (NewTicker TIME_STEP); logger_Info "Simulation paused"]).
Proof.
  apply (run_until_stop running_sim (NewTicker TIME_STEP) 2 [tick_due]).
  reflexivity.
Defined.

Lemma CanActivate_unchanged_by_clock_witness :
  CanActivate mkStandardManager (Start sim_shared 1 2).1 route_1
  = CanActivate mkStandardManager sim_shared route_1.
Proof.
  apply (CanActivate_unchanged_by_clock mkStandardManager sim_shared
           (Start sim_shared 1 2).1 route_1).
  apply rtc_once. apply (step_Start sim_shared 1 2).
Defined.

Lemma run_changes_clock_only_witness :
  set_Options running_sim (mkOptions (2 * TIME_STEP))
  = set_clock
      (set_Options running_sim
         (Options (set_Options running_sim (mkOptions (2 * TIME_STEP)))))
      (clockTicker (set_Options running_sim (mkOptions (2 * TIME_STEP))))
      (stopChan running_sim)
      (EventChan (set_Options running_sim (mkOptions (2 * TIME_STEP)))).
Proof.
  apply (run_changes_clock_only running_sim [tick_due; tick_due]
           (set_Options running_sim (mkOptions (2 * TIME_STEP)))
           (repeat (go_send_EventChan (mkEvent CLOCK CurrentTime_ptr)) 2)).
  reflexivity.
Defined.

Lemma run_ticks sim (n : nat) :
  is_Some (clockTicker sim) ->
  run sim (repeat tick_due n) =
  Some (set_Options sim
          (mkOptions (CurrentTime (Options sim) + Z.of_nat n * TIME_STEP)),
        repeat (go_send_EventChan (mkEvent CLOCK CurrentTime_ptr)) n).
Proof.
  revert sim. induction n as [| n IH]; intros sim [t Ht].
  - simpl repeat. rewrite run_unfold, Ht. simpl.
    replace (CurrentTime (Options sim) + Z.of_nat 0 * TIME_STEP)
      with (CurrentTime (Options sim)) by lia.
    by destruct sim as [? ? ? [?] ? ? ? ? ? ? ? ?].
  - simpl repeat. rewrite (run_tick sim t) by done.
    rewrite IH by (simpl; rewrite Ht; eauto). simpl. unfold Time_Add.
    rewrite set_Options_twice.
    by replace (CurrentTime (Options sim) + TIME_STEP + Z.of_nat n * TIME_STEP)
      with (CurrentTime (Options sim) + Z.of_nat (S n) * TIME_STEP) by lia.
Qed.

(** X10: the loop composes over ticks: running N ticks and then a trace is
    running the N ticks, then the trace from the state reached, the
    effects of the two runs following each other. *)
Theorem run_after_ticks sim (n : nat) trace :
  run sim (repeat tick_due n ++ trace) =
  '(sim1, effs1) ← run sim (repeat tick_due n);
  '(sim2, effs2) ← run sim1 trace;
  Some (sim2, effs1 ++ effs2).
Proof.
  revert sim. induction n as [| n IH]; intros sim;
    destruct (clockTicker sim) as [t |] eqn:Ht.
  - simpl repeat. simpl app. rewrite (run_unfold sim []), Ht. simpl.
    by destruct (run sim trace) as [[sim2 effs2] |].
  - by rewrite !run_no_ticker.
  - simpl repeat. rewrite <- app_comm_cons, !(run_tick sim t) by done.
    rewrite IH.
    destruct (run _ (repeat tick_due n)) as [[sim1 effs1] |]; simpl; [| done].
    by destruct (run sim1 trace) as [[sim2 effs2] |].
  - by rewrite !run_no_ticker.
Qed.

(** X11: a pause does not lose time: after N ticks and a stop request the
    simulation has no ticker, so [Start] starts it again, and M more ticks
    bring CurrentTime to the start time plus N + M steps. *)
Theorem pause_then_Start_resumes sim (n m : nat) rest stop event :
  is_Some (clockTicker sim) ->
  exists sim1 effs1 sim2 effs2,
    run sim (repeat tick_due n ++ stop_requested :: rest) = Some (sim1, effs1)
    /\ clockTicker sim1 = None
    /\ (Start sim1 stop event).2 = [go_run; logger_Info "Simulation started"]
    /\ run (Start sim1 stop event).1 (repeat tick_due m) = Some (sim2, effs2)
    /\ CurrentTime (Options sim2)
       = CurrentTime (Options sim) + Z.of_nat (n + m) * TIME_STEP.
Proof.
  intros [t Ht].
  eexists _, _, _, _. split; [by apply (run_ticks_then_stop sim t) |].
  split; [done |]. split; [done |].
  split; [apply run_ticks; apply Start_is_running |].
  rewrite Start_CurrentTime. simpl. lia.
Qed.

Lemma pause_then_Start_resumes_witness :
  exists sim1 effs1 sim2 effs2,
    run running_sim (repeat tick_due 2 ++ [stop_requested]) = Some (sim1, effs1)
    /\ clockTicker sim1 = None
    /\ (Start sim1 5 6).2 = [go_run; logger_Info "Simulation started"]
    /\ run (Start sim1 5 6).1 (repeat tick_due 3) = Some (sim2, effs2)
    /\ CurrentTime (Options sim2)
       = CurrentTime (Options running_sim) + Z.of_nat (2 + 3) * TIME_STEP.
Proof.
  apply (pause_then_Start_resumes running_sim 2 3 [] 5 6).
  vm_compute. eauto.
Defined.

(** X12: simulated time never goes back: along any sequence of starts and
    loop runs CurrentTime does not decrease. *)
Theorem CurrentTime_monotone sim sim' :
  rtc clock_step sim sim' ->
  CurrentTime (Options sim) <= CurrentTime (Options sim').
Proof.
  induction 1 as [sim | sim sim1 sim2 Hstep _ IH]; [lia |].
  destruct (clock_step_CurrentTime _ _ Hstep) as [k Hk].
  rewrite Hk in IH. rewrite TIME_STEP_ns in IH. lia.
Qed.

Lemma CurrentTime_monotone_witness :
  CurrentTime (Options stopped_sim) <= CurrentTime (Options running_sim).
Proof.
  apply (CurrentTime_monotone stopped_sim running_sim).
  apply rtc_once. apply (step_Start stopped_sim 1 2).
Defined.

(** ** The loader, entry by entry *)

Lemma ti_ID_setId ti k : ti_ID (ti_setId ti k) = k.
Proof. by destruct ti. Qed.

Lemma variant_of_tag_item tag :
  tag ∈ item_tags <-> is_Some (variant_of_tag tag).
Proof.
  split.
  - unfold item_tags. intros H.
    repeat (apply elem_of_cons in H as [-> | H]; [eexists; reflexivity |]).
    by apply elem_of_nil in H.
  - unfold variant_of_tag, item_tags.
    repeat match goal with
           | |- context [String.eqb tag ?c] =>
               destruct (String.eqb_spec tag c) as [-> | _];
               [intros _; repeat constructor |]
           end.
    by intros [? ?].
Qed.

(** What [unmarshalItem] does to the simulation. *)
Lemma unmarshalItem_sim sim tiId tiType raw ty :
  (unmarshalItem sim tiId tiType raw ty).1 =
  match raw_item raw ty, key_number tiId with
  | Decoded ti, Some n =>
      set_TrackItems sim (<[n := ti_setId ti n]> (TrackItems sim))
  | _, _ => sim
  end.
Proof.
  unfold unmarshalItem, key_number.
  destruct (raw_item raw ty) as [ti | err]; [| done].
  by destruct (Atoi _) as [n | e].
Qed.

(** The loop body, by the type tag of the entry. *)
Lemma load_TrackItem_variant sim tiId raw tag ty :
  type_tag raw = Some tag ->
  variant_of_tag tag = Some ty ->
  load_TrackItem sim tiId raw = ((unmarshalItem sim tiId tag raw ty).1, nil_error).
Proof.
  unfold type_tag, load_TrackItem, variant_of_tag.
  destruct (raw_fields raw) as [rawItem | err]; [| done].
  intros [= <-].
  set (tag := default EmptyString (rawItem !! "__type__"%string)).
  repeat match goal with
         | |- context [String.eqb tag ?c] =>
             destruct (String.eqb tag c); [by intros [= <-] |]
         end.
  done.
Qed.

Lemma load_TrackItem_other sim tiId raw :
  (forall tag, type_tag raw = Some tag -> variant_of_tag tag = None) ->
  TrackItems (load_TrackItem sim tiId raw).1 = TrackItems sim.
Proof.
  unfold type_tag, load_TrackItem, variant_of_tag.
  destruct (raw_fields raw) as [rawItem | err]; [| done].
  intros Hnone. specialize (Hnone _ eq_refl).
  set (tag := default EmptyString (rawItem !! "__type__"%string)) in *.
  repeat match goal with
         | H : context [String.eqb tag ?c] |- _ =>
             destruct (String.eqb tag c); [done |]
         end.
  destruct (String.eqb tag (quoted "Place")); [| done].
  by destruct (raw_place raw).
Qed.

Lemma load_TrackItem_storable sim entry n ti :
  storable entry n ti ->
  load_TrackItem sim entry.1 entry.2 =
  (set_TrackItems sim (<[n := ti_setId ti n]> (TrackItems sim)), nil_error).
Proof.
  intros (tag & ty & Htag & Hty & Hdec & Hkey).
  rewrite (load_TrackItem_variant sim _ _ tag ty) by done.
  by rewrite unmarshalItem_sim, Hdec, Hkey.
Qed.

(** An entry leaves the track items as they are, or stores the item it
    describes under the number of its key. *)
Lemma load_TrackItem_TrackItems sim tiId raw :
  TrackItems (load_TrackItem sim tiId raw).1 = TrackItems sim
  \/ exists n ti,
       storable (tiId, raw) n ti
       /\ TrackItems (load_TrackItem sim tiId raw).1
          = <[n := ti_setId ti n]> (TrackItems sim).
Proof.
  destruct (type_tag raw) as [tag |] eqn:Htag.
  - destruct (variant_of_tag tag) as [ty |] eqn:Hty.
    + rewrite (load_TrackItem_variant sim _ _ tag ty) by done.
      rewrite unmarshalItem_sim. simpl.
      destruct (raw_item raw ty) as [ti | err] eqn:Hdec; [| by left].
      destruct (key_number tiId) as [n |] eqn:Hkey; [| by left].
      right. exists n, ti. split; [by exists tag, ty | done].
    + left. apply load_TrackItem_other. intros tag' Htag'. congruence.
  - left. apply load_TrackItem_other. intros tag' Htag'. congruence.
Qed.

Lemma load_TrackItem_lookup_ne sim tiId raw n :
  key_number tiId <> Some n ->
  TrackItems (load_TrackItem sim tiId raw).1 !! n = TrackItems sim !! n.
Proof.
  intros Hkey.
  destruct (load_TrackItem_TrackItems sim tiId raw)
    as [-> | (m & ti & (tag & ty & _ & _ & _ & Hm) & ->)]; [done |].
  simpl in Hm. apply lookup_insert_ne. congruence.
Qed.

(** The loop body touches the track items and the places only. *)
Lemma load_TrackItem_shape sim tiId raw :
  exists items places,
    (load_TrackItem sim tiId raw).1 = set_Places (set_TrackItems sim items) places.
Proof.
  unfold load_TrackItem.
  assert (Hsame : sim = set_Places (set_TrackItems sim (TrackItems sim)) (Places sim))
    by (by destruct sim).
  destruct (raw_fields raw) as [rawItem | err]; [| by eexists _, _].
  set (tag := default EmptyString (rawItem !! "__type__"%string)).
  repeat match goal with
         | |- context [String.eqb tag ?c] =>
             destruct (String.eqb tag c);
             [try (simpl; rewrite unmarshalItem_sim;
                   destruct (raw_item raw _); [| by eexists _, _];
                   destruct (key_number tiId); [| by eexists _, _];
                   by eexists _, (Places sim)) |]
         end.
  - destruct (raw_place raw) as [pl | err]; [| by eexists _, _].
    by eexists (TrackItems sim), _.
  - by eexists _, _.
Qed.

Lemma load_TrackItems_shape sim items :
  exists tis places,
    (load_TrackItems sim items).1 = set_Places (set_TrackItems sim tis) places.
Proof.
  revert sim. induction items as [| [tiId raw] rest IH]; intros sim; simpl.
  - exists (TrackItems sim), (Places sim). by destruct sim.
  - destruct (load_TrackItem_shape sim tiId raw) as (tis1 & places1 & H1).
    destruct (load_TrackItem sim tiId raw) as [sim1 [msg |]]; simpl in *.
    + by eexists _, _.
    + destruct (IH sim1) as (tis2 & places2 & H2). rewrite H2, H1.
      by eexists _, _.
Qed.

Lemma load_Routes_shape sim routes :
  exists m, (load_Routes sim routes).1 = set_Routes sim m.
Proof.
  revert sim. induction routes as [| [num route] rest IH]; intros sim; simpl.
  - exists (Routes sim). by destruct sim.
  - destruct (Atoi num) as [routeNum | e]; simpl.
    + destruct (IH (set_Routes sim (<[routeNum := route]> (Routes sim))))
        as [m ->]. by eexists.
    + exists (Routes sim). by destruct sim.
Qed.

Lemma load_TrackItems_app sim items1 items2 :
  load_TrackItems sim (items1 ++ items2) =
  match load_TrackItems sim items1 with
  | (sim1, None) => load_TrackItems sim1 items2
  | (sim1, Some msg) => (sim1, Some msg)
  end.
Proof.
  revert sim. induction items1 as [| [tiId raw] rest IH]; intros sim; simpl.
  - done.
  - destruct (load_TrackItem sim tiId raw) as [sim1 [msg |]]; [done | apply IH].
Qed.

Lemma load_TrackItems_lookup_ne sim items n :
  Forall (fun entry => key_number entry.1 <> Some n) items ->
  TrackItems (load_TrackItems sim items).1 !! n = TrackItems sim !! n.
Proof.
  intros Hkeys. revert sim.
  induction Hkeys as [| [tiId raw] rest Hkey _ IH]; intros sim; simpl; [done |].
  pose proof (load_TrackItem_lookup_ne sim tiId raw n Hkey) as Hstep.
  destruct (load_TrackItem sim tiId raw) as [sim1 [msg |]]; simpl in *; [done |].
  by rewrite IH.
Qed.

(** Every item the loop stores comes from a storable entry of the list,
    items of the state the loop starts from apart. *)
Lemma load_TrackItems_origin sim items k ti :
  TrackItems (load_TrackItems sim items).1 !! k = Some ti ->
  TrackItems sim !! k = Some ti
  \/ exists entry ti0, entry ∈ items /\ storable entry k ti0 /\ ti = ti_setId ti0 k.
Proof.
  revert sim. induction items as [| [tiId raw] rest IH]; intros sim; simpl;
    [by left |].
  pose proof (load_TrackItem_TrackItems sim tiId raw) as Hstep.
  destruct (load_TrackItem sim tiId raw) as [sim1 [msg |]]; simpl in *.
  - intros Hk.
    destruct Hstep as [Heq | (n & ti0 & Hst & Heq)]; rewrite Heq in Hk.
    + by left.
    + destruct (decide (n = k)) as [-> | Hne].
      * rewrite lookup_insert_eq in Hk. injection Hk as <-.
        right. exists (tiId, raw), ti0. split; [by left | done].
      * rewrite lookup_insert_ne in Hk by done. by left.
  - intros Hk. apply IH in Hk as [Hk | (entry & ti0 & Hin & Hst & ->)].
    + destruct Hstep as [Heq | (n & ti0 & Hst & Heq)]; rewrite Heq in Hk.
      * by left.
      * destruct (decide (n = k)) as [-> | Hne].
        -- rewrite lookup_insert_eq in Hk. injection Hk as <-.
           right. exists (tiId, raw), ti0. split; [by left | done].
        -- rewrite lookup_insert_ne in Hk by done. by left.
    + right. exists entry, ti0. split; [by right | done].
Qed.

(** ** The loader, as a whole *)

Lemma UnmarshalJSON_TrackItems sim rawSim :
  TrackItems (UnmarshalJSON sim (Decoded rawSim)).1 =
  TrackItems (load_TrackItems (set_Places (set_TrackItems sim ∅) ∅)
                (aux_TrackItems rawSim)).1.
Proof.
  unfold UnmarshalJSON.
  destruct (load_TrackItems _ _) as [sim1 [msg |]]; [done |].
  destruct (load_Routes_shape
              (set_Routes (set_SignalLib (set_Options sim1 (aux_Options rawSim))
                             (aux_SignalLib rawSim)) ∅)
              (aux_Routes rawSim)) as [m Hm].
  destruct (load_Routes _ _) as [sim2 [msg |]]; simpl in *; by subst sim2.
Qed.

Lemma UnmarshalJSON_no_error_items sim rawSim :
  (UnmarshalJSON sim (Decoded rawSim)).2 = nil_error ->
  (load_TrackItems (set_Places (set_TrackItems sim ∅) ∅)
     (aux_TrackItems rawSim)).2 = nil_error.
Proof.
  unfold UnmarshalJSON.
  by destruct (load_TrackItems _ _) as [sim1 [msg |]].
Qed.

(** X13: every track item of a freshly loaded simulation comes from an
    entry of the document that the loader stores, under the number of the
    entry's key, and carries that number as its ID; nothing of the track
    items the simulation had before survives. *)
Theorem UnmarshalJSON_items_from_document sim rawSim k ti :
  TrackItems (UnmarshalJSON sim (Decoded rawSim)).1 !! k = Some ti ->
  exists entry ti0,
    entry ∈ aux_TrackItems rawSim
    /\ storable entry k ti0
    /\ ti = ti_setId ti0 k
    /\ ti_ID ti = k.
Proof.
  rewrite UnmarshalJSON_TrackItems. intros Hk.
  apply load_TrackItems_origin in Hk as [Hk | (entry & ti0 & Hin & Hst & ->)].
  - done.
  - exists entry, ti0. by rewrite ti_ID_setId.
Qed.

Lemma UnmarshalJSON_items_from_document_witness :
  exists entry ti0,
    entry ∈ aux_TrackItems doc_two_lines
    /\ storable entry 2 ti0
    /\ line 2 None None None = ti_setId ti0 2
    /\ ti_ID (line 2 None None None) = 2.
Proof.
  apply (UnmarshalJSON_items_from_document sim_shared doc_two_lines 2
           (line 2 None None None)).
  reflexivity.
Defined.

(** X14: when the load succeeds, an entry the loader stores is found in the
    track items under the number of its key, with that number as ID,
    provided no entry visited after it has a key for the same number. *)
Theorem UnmarshalJSON_stores_item sim rawSim pre entry post n ti :
  aux_TrackItems rawSim = pre ++ entry :: post ->
  storable entry n ti ->
  Forall (fun later => key_number later.1 <> Some n) post ->
  (UnmarshalJSON sim (Decoded rawSim)).2 = nil_error ->
  TrackItems (UnmarshalJSON sim (Decoded rawSim)).1 !! n = Some (ti_setId ti n).
Proof.
  intros Hitems Hst Hpost Hok.
  apply UnmarshalJSON_no_error_items in Hok.
  rewrite UnmarshalJSON_TrackItems. rewrite Hitems in *.
  rewrite load_TrackItems_app in *.
  destruct (load_TrackItems _ pre) as [sim1 [msg |]]; [done |].
  destruct entry as [tiId raw]. simpl.
  pose proof (load_TrackItem_storable sim1 (tiId, raw) n ti Hst) as Hstore.
  simpl in Hstore. unfold nil_error in Hstore. rewrite Hstore.
  rewrite load_TrackItems_lookup_ne by done. simpl.
  apply lookup_insert_eq.
Qed.

Lemma storable_raw_line (tiId : string) n :
  key_number tiId = Some n -> storable (tiId, raw_line) n (line 0 None None None).
Proof. intros Hkey. by exists (quoted "LineItem"), TypeLine. Qed.

Lemma UnmarshalJSON_stores_item_witness :
  TrackItems (UnmarshalJSON sim_shared (Decoded doc_two_lines)).1 !! 1
  = Some (ti_setId (line 0 None None None) 1).
Proof.
  apply (UnmarshalJSON_stores_item sim_shared doc_two_lines []
           ("1"%string, raw_line) [("2"%string, raw_line)] 1
           (line 0 None None None)).
  - reflexivity.
  - apply storable_raw_line. reflexivity.
  - apply Forall_cons; split; [| apply Forall_nil_2].
    vm_compute. intros [= ?].
  - reflexivity.
Defined.




Lemma UnmarshalJSON_shape sim rawSim :
  exists tis places opts lib routes tt sv tr ml,
    (UnmarshalJSON sim (Decoded rawSim)).1 =
    set_rolling
      (set_Routes
         (set_SignalLib (set_Options (set_Places (set_TrackItems sim tis) places) opts)
            lib) routes) tt sv tr ml.
Proof.
  unfold UnmarshalJSON.
  destruct (load_TrackItems_shape (set_Places (set_TrackItems sim ∅) ∅)
              (aux_TrackItems rawSim)) as (tis & places & Hitems).
  destruct (load_TrackItems _ _) as [sim1 [msg |]]; simpl in Hitems; subst sim1.
  { exists tis, places, (Options sim), (SignalLib sim), (Routes sim),
      (TrainTypes sim), (Services sim), (Trains sim), (MessageLogger sim).
    by destruct sim. }
  match goal with
  | |- context [load_Routes ?s ?l] =>
      destruct (load_Routes_shape s l) as [m Hm];
      destruct (load_Routes s l) as [sim2 [msg |]]; simpl in Hm; subst sim2
  end.
  - exists tis, places, (aux_Options rawSim), (aux_SignalLib rawSim), m,
      (TrainTypes sim), (Services sim), (Trains sim), (MessageLogger sim).
    by destruct sim.
  - by eexists tis, places, _, _, m, _, _, _, _.
Qed.

(** X16: loading never touches the clock: the ticker, the stop channel and
    the event channel of the simulation are after the call, successful or
    not, what they were before. *)
Theorem UnmarshalJSON_keeps_clock sim data :
  clockTicker (UnmarshalJSON sim data).1 = clockTicker sim
  /\ stopChan (UnmarshalJSON sim data).1 = stopChan sim
  /\ EventChan (UnmarshalJSON sim data).1 = EventChan sim.
Proof.
  destruct data as [rawSim | err]; [| done].
  destruct (UnmarshalJSON_shape sim rawSim)
    as (tis & places & opts & lib & routes & tt & sv & tr & ml & ->).
  done.
Qed.

(** X17: a successful load takes the options, the signal library, the train
    types, the services, the trains and the message logger from the
    document; the type of a signal is then looked up in the signal library
    of the document. *)
Theorem UnmarshalJSON_success_copies sim rawSim sim' :
  UnmarshalJSON sim (Decoded rawSim) = (sim', nil_error) ->
  Options sim' = aux_Options rawSim
  /\ SignalLib sim' = aux_SignalLib rawSim
  /\ TrainTypes sim' = aux_TrainTypes rawSim
  /\ Services sim' = aux_Services rawSim
  /\ Trains sim' = aux_Trains rawSim
  /\ MessageLogger sim' = aux_MessageLogger rawSim
  /\ (forall si,
        SignalItem_SignalType sim' si
        = Types (aux_SignalLib rawSim) !! SignalTypeCode si).
Proof.
  unfold UnmarshalJSON.
  destruct (load_TrackItems _ _) as [sim1 [msg |]]; [done |].
  match goal with
  | |- context [load_Routes ?s ?l] =>
      destruct (load_Routes_shape s l) as [m Hm];
      destruct (load_Routes s l) as [sim2 [msg |]]; simpl in Hm; subst sim2
  end; [done |].
  by intros [= <-].
Qed.

Lemma UnmarshalJSON_success_copies_witness :
  Options (UnmarshalJSON sim_shared (Decoded doc_two_lines)).1
  = aux_Options doc_two_lines
  /\ MessageLogger (UnmarshalJSON sim_shared (Decoded doc_two_lines)).1
     = aux_MessageLogger doc_two_lines.
Proof.
  destruct (UnmarshalJSON_success_copies sim_shared doc_two_lines
              (UnmarshalJSON sim_shared (Decoded doc_two_lines)).1)
    as (Hopts & _ & _ & _ & _ & Hml & _); [reflexivity | by split].
Defined.





(** ** Signals, further *)

(** X19: a reset done twice with the same argument does what it does once,
    for both resets. *)
Theorem reset_idempotent si r :
  resetNextActiveRoute (resetNextActiveRoute si r) r = resetNextActiveRoute si r
  /\ resetPreviousActiveRoute (resetPreviousActiveRoute si r) r
     = resetPreviousActiveRoute si r.
Proof.
  rewrite !resetNextActiveRoute_cases, !resetPreviousActiveRoute_cases. split.
  - destruct (refers_to_other r (nextActiveRoute si)) eqn:Hother.
    + by rewrite Hother.
    + simpl. by destruct r.
  - destruct (refers_to_other r (previousActiveRoute si)) eqn:Hother.
    + by rewrite Hother.
    + simpl. by destruct r.
Qed.

(** X20: after a reset with route [r] the field does not refer to a route
    with the ID of [r]: whatever it still holds is another route. *)
Theorem reset_forgets_route si r cur :
  (nextActiveRoute (resetNextActiveRoute si (Some r)) = Some cur -> ID cur <> ID r)
  /\ (previousActiveRoute (resetPreviousActiveRoute si (Some r)) = Some cur ->
      ID cur <> ID r).
Proof.
  rewrite resetNextActiveRoute_cases, resetPreviousActiveRoute_cases. split.
  - destruct (refers_to_other (Some r) (nextActiveRoute si)) eqn:Hother; [| done].
    apply refers_to_other_true in Hother as (r' & cur' & [= <-] & Hcur & Hne).
    rewrite Hcur. by intros [= <-].
  - destruct (refers_to_other (Some r) (previousActiveRoute si)) eqn:Hother;
      [| done].
    apply refers_to_other_true in Hother as (r' & cur' & [= <-] & Hcur & Hne).
    rewrite Hcur. by intros [= <-].
Qed.

Lemma reset_forgets_route_witness :
  ID (demo_route 1) <> ID (demo_route 2).
Proof.
  apply (proj1 (reset_forgets_route (demo_signal (Some (demo_route 1)) None)
                  (demo_route 2) (demo_route 1))).
  reflexivity.
Defined.

(** X21: each reset touches its own field only, so the two resets commute
    and neither changes the route the signal holds as a track item. *)
Theorem resets_commute si r r' :
  resetPreviousActiveRoute (resetNextActiveRoute si r) r'
  = resetNextActiveRoute (resetPreviousActiveRoute si r') r
  /\ previousActiveRoute (resetNextActiveRoute si r) = previousActiveRoute si
  /\ nextActiveRoute (resetPreviousActiveRoute si r') = nextActiveRoute si
  /\ si_trackStruct (resetNextActiveRoute si r) = si_trackStruct si
  /\ si_trackStruct (resetPreviousActiveRoute si r') = si_trackStruct si.
Proof.
  rewrite !resetNextActiveRoute_cases, !resetPreviousActiveRoute_cases.
  destruct (refers_to_other r (nextActiveRoute si)) eqn:Hnext;
    destruct (refers_to_other r' (previousActiveRoute si)) eqn:Hprev;
    simpl; rewrite ?Hnext, ?Hprev; done.
Qed.

(** X22: only the first action of an aspect counts: two aspects with the
    same first action, or both without action, mean the same. *)
Theorem MeansProceed_first_action_only sa sa' :
  head (Actions sa) = head (Actions sa') ->
  MeansProceed sa = MeansProceed sa'.
Proof.
  unfold MeansProceed.
  destruct (Actions sa) as [| a rest], (Actions sa') as [| a' rest']; simpl;
    try done.
  by intros [= <-].
Qed.

Lemma MeansProceed_first_action_only_witness :
  MeansProceed (aspect_of [mkSignalAction BeforeThisSignal 0 0])
  = MeansProceed
      (mkSignalAspect "red" bufferStyle [circleShape] [] [noneShape] []
         [mkSignalAction BeforeThisSignal 0 0; mkSignalAction ASAP 10 5]).
Proof.
  apply (MeansProceed_first_action_only
           (aspect_of [mkSignalAction BeforeThisSignal 0 0])
           (mkSignalAspect "red" bufferStyle [circleShape] [] [noneShape] []
              [mkSignalAction BeforeThisSignal 0 0; mkSignalAction ASAP 10 5])).
  reflexivity.
Defined.

(** X23: the speed of the first action is compared with zero as floats
    are: a speed of minus zero is a zero speed, so the aspect means proceed
    only if the target is BeforeNextSignal, and a speed that is not a
    number means proceed whatever the target. *)
Theorem MeansProceed_float_edges n ls os oc sh sc target d rest :
  MeansProceed (mkSignalAspect n ls os oc sh sc
                  (mkSignalAction target (-0)%float d :: rest))
  = (target =? BeforeNextSignal)
  /\ MeansProceed (mkSignalAspect n ls os oc sh sc
                     (mkSignalAction target nan d :: rest)) = true.
Proof.
  unfold MeansProceed. simpl.
  split; [| reflexivity].
  by destruct (target =? BeforeNextSignal).
Qed.

(** ** Decoding a signal action *)

Lemma float_trunc_examples :
  float_trunc 2.5 = Some 2 /\ float_trunc (-2.5) = Some (-2)
  /\ float_trunc 0.5 = Some 0 /\ float_trunc (-0)%float = Some 0
  /\ float_trunc infinity = None /\ float_trunc nan = None.
Proof. repeat split. Qed.




(** The receiver is left as it was when the message is not an array of
    numbers. *)
Lemma SignalAction_UnmarshalJSON_error sa data err :
  SignalAction_UnmarshalJSON sa data (DecodeError err) =
  Some (sa, Errorf ("unable to read signal action: " +:+ data
                    +:+ " (" +:+ err +:+ ")")).
Proof. reflexivity. Qed.

Lemma SignalAction_UnmarshalJSON_examples :
  SignalAction_UnmarshalJSON (mkSignalAction 0 0 0) "[1, 0, 2.5]"
    (Decoded (1, 0, 2.5)%float)
  = Some (mkSignalAction BeforeThisSignal 0 (2 * Second), nil_error)
  /\ SignalAction_UnmarshalJSON (mkSignalAction 0 0 0) "[2, 40.5, 0.75]"
       (Decoded (2, 40.5, 0.75)%float)
     = Some (mkSignalAction BeforeNextSignal 40.5 0, nil_error)
  /\ SignalAction_UnmarshalJSON (mkSignalAction 0 0 0) "[256, 0, 0]"
       (Decoded (256, 0, 0)%float) = None.
Proof. repeat split. Qed.



(** ** The short circuit of the walk *)

Lemma CanActivate_same_route_short_circuit_witness :
  CanActivate mkStandardManager sim_opposite_behind route_1 = Some true.
Proof.
  apply (CanActivate_same_route_short_circuit mkStandardManager
           sim_opposite_behind route_1 [mkPosition 10 9] (mkPosition 11 10)
           [mkPosition 12 11; mkPosition 20 12]
           (line 11 None (Some route_1) (Some 10)) route_1
           (signal 10 (Some route_1) (Some 9)) (signal 10 (Some route_1) (Some 9))).
  - reflexivity.
  - apply Forall_cons; split; [| apply Forall_nil_2].
    exists (signal 10 (Some route_1) (Some 9)). split; reflexivity.
  - reflexivity.
  - reflexivity.
  - reflexivity.
  - discriminate.
  - reflexivity.
  - reflexivity.
  - reflexivity.
  - reflexivity.
  - reflexivity.
Defined.

(** ** Places and routes of a loaded simulation *)

Lemma load_TrackItem_place sim tiId raw pl :
  is_place raw pl ->
  load_TrackItem sim tiId raw
  = (set_Places sim (<[PlaceCode pl := pl]> (Places sim)), nil_error).
Proof.
  unfold is_place, type_tag, load_TrackItem.
  destruct (raw_fields raw) as [rawItem | err]; [| by intros [? _]].
  intros [[= Htag] Hdec]. rewrite Htag. simpl. by rewrite Hdec.
Qed.

Lemma load_TrackItem_Places sim tiId raw :
  Places (load_TrackItem sim tiId raw).1 = Places sim
  \/ exists pl,
       is_place raw pl
       /\ Places (load_TrackItem sim tiId raw).1
          = <[PlaceCode pl := pl]> (Places sim).
Proof.
  unfold is_place, type_tag, load_TrackItem.
  destruct (raw_fields raw) as [rawItem | err]; [| by left].
  set (tag := default EmptyString (rawItem !! "__type__"%string)).
  repeat match goal with
         | |- context [String.eqb tag (quoted ?c)] =>
             lazymatch c with
             | "Place"%string => fail
             | _ => destruct (String.eqb tag (quoted c));
                    [left; simpl; rewrite unmarshalItem_sim;
                     destruct (raw_item raw _); [| done];
                     by destruct (key_number tiId) |]
             end
         end.
  destruct (String.eqb_spec tag (quoted "Place")) as [-> | _]; [| by left].
  destruct (raw_place raw) as [pl | err]; [| by left].
  right. by exists pl.
Qed.

Lemma load_TrackItems_Places_ne sim items code :
  Forall (fun entry => forall pl, is_place entry.2 pl -> PlaceCode pl <> code)
    items ->
  Places (load_TrackItems sim items).1 !! code = Places sim !! code.
Proof.
  intros Hcodes. revert sim.
  induction Hcodes as [| [tiId raw] rest Hcode _ IH]; intros sim; simpl; [done |].
  pose proof (load_TrackItem_Places sim tiId raw) as Hstep.
  destruct (load_TrackItem sim tiId raw) as [sim1 err]. simpl in Hstep.
  assert (Hsame : Places sim1 !! code = Places sim !! code).
  { destruct Hstep as [-> | (pl & Hpl & ->)]; [done |].
    apply lookup_insert_ne. by apply Hcode. }
  destruct err as [msg |]; simpl; [done |]. by rewrite IH.
Qed.

Lemma UnmarshalJSON_Places sim rawSim :
  Places (UnmarshalJSON sim (Decoded rawSim)).1 =
  Places (load_TrackItems (set_Places (set_TrackItems sim ∅) ∅)
            (aux_TrackItems rawSim)).1.
Proof.
  unfold UnmarshalJSON.
  destruct (load_TrackItems _ _) as [sim1 [msg |]]; [done |].
  match goal with
  | |- context [load_Routes ?s ?l] =>
      destruct (load_Routes_shape s l) as [m Hm];
      destruct (load_Routes s l) as [sim2 [msg |]]; simpl in Hm; subst sim2
  end; done.
Qed.

(** X26: when the load succeeds, a place of the document is found under
    its place code, the key of its entry playing no part, provided no
    place visited after it has the same code. *)
Theorem UnmarshalJSON_stores_place sim rawSim pre tiId raw post pl :
  aux_TrackItems rawSim = pre ++ (tiId, raw) :: post ->
  is_place raw pl ->
  Forall (fun later => forall pl', is_place later.2 pl' ->
                                   PlaceCode pl' <> PlaceCode pl) post ->
  (UnmarshalJSON sim (Decoded rawSim)).2 = nil_error ->
  Places (UnmarshalJSON sim (Decoded rawSim)).1 !! PlaceCode pl = Some pl.
Proof.
  intros Hitems Hpl Hpost Hok.
  apply UnmarshalJSON_no_error_items in Hok.
  rewrite UnmarshalJSON_Places. rewrite Hitems in *.
  rewrite load_TrackItems_app in *.
  destruct (load_TrackItems _ pre) as [sim1 [msg |]]; [done |].
  simpl. rewrite (load_TrackItem_place sim1 tiId raw pl Hpl).
  unfold nil_error. rewrite load_TrackItems_Places_ne by done. simpl.
  apply lookup_insert_eq.
Qed.

Lemma UnmarshalJSON_stores_place_witness :
  Places (UnmarshalJSON stopped_sim (Decoded doc_station)).1 !! PlaceCode (mkPlace "STN")
  = Some (mkPlace "STN").
Proof.
  apply (UnmarshalJSON_stores_place stopped_sim doc_station
           [("1"%string, raw_line)] "p" raw_station [] (mkPlace "STN")).
  - reflexivity.
  - split; reflexivity.
  - apply Forall_nil_2.
  - reflexivity.
Defined.

Lemma load_Routes_app sim routes1 routes2 :
  load_Routes sim (routes1 ++ routes2) =
  match load_Routes sim routes1 with
  | (sim1, None) => load_Routes sim1 routes2
  | (sim1, Some msg) => (sim1, Some msg)
  end.
Proof.
  revert sim. induction routes1 as [| [num route] rest IH]; intros sim; simpl.
  - done.
  - destruct (Atoi num) as [routeNum | e]; [apply IH | done].
Qed.

Lemma load_Routes_lookup_ne sim routes n :
  Forall (fun entry => Atoi entry.1 <> inl n) routes ->
  Routes (load_Routes sim routes).1 !! n = Routes sim !! n.
Proof.
  intros Hnums. revert sim.
  induction Hnums as [| [num route] rest Hnum _ IH]; intros sim; simpl; [done |].
  simpl in Hnum. destruct (Atoi num) as [routeNum | e]; [| done].
  rewrite IH. simpl. apply lookup_insert_ne. congruence.
Qed.

(** X27: when the load succeeds, a route of the document is found in the
    routes under the integer its number stands for, provided no route
    visited after it has a number for the same integer; the number is
    read as it is written, quotes are not trimmed from it. *)
Theorem UnmarshalJSON_stores_route sim rawSim pre num route post n :
  aux_Routes rawSim = pre ++ (num, route) :: post ->
  Atoi num = inl n ->
  Forall (fun later => Atoi later.1 <> inl n) post ->
  (UnmarshalJSON sim (Decoded rawSim)).2 = nil_error ->
  Routes (UnmarshalJSON sim (Decoded rawSim)).1 !! n = Some route.
Proof.
  intros Hroutes Hnum Hpost. unfold UnmarshalJSON.
  destruct (load_TrackItems _ _) as [sim1 [msg |]]; [done |].
  rewrite Hroutes, load_Routes_app.
  match goal with
  | |- context [load_Routes ?s pre] =>
      destruct (load_Routes s pre) as [sim2 [msg |]]; [done |]
  end.
  simpl. rewrite Hnum.
  pose proof (load_Routes_lookup_ne
                (set_Routes sim2 (<[n := route]> (Routes sim2))) post n Hpost)
    as Hkeep.
  destruct (load_Routes _ post) as [sim3 [msg |]]; [done |].
  intros _. simpl in *. rewrite Hkeep. apply lookup_insert_eq.
Qed.

Lemma UnmarshalJSON_stores_route_witness :
  Routes (UnmarshalJSON stopped_sim (Decoded doc_station)).1 !! 1 = Some route_1.
Proof.
  apply (UnmarshalJSON_stores_route stopped_sim doc_station [] "1" route_1 [] 1).
  - reflexivity.
  - reflexivity.
  - apply Forall_nil_2.
  - reflexivity.
Defined.

(** ** Sharing the end of an active route *)

Lemma walk_through_clear sim r pre rest :
  Forall (boundary_or_clear sim r) pre ->
  CanActivate_walk sim r false (pre ++ rest) = CanActivate_walk sim r false rest.
Proof.
  induction 1 as [| pos pre (ti & Hti & Hcase) _ IH]; [done |].
  rewrite <- app_comm_cons.
  destruct (is_boundary r ti) eqn:Hb.
  - by rewrite (walk_boundary _ _ _ _ _ ti).
  - destruct Hcase as [? | [Hfree Hc]]; [done |].
    by rewrite (walk_free _ _ _ _ _ ti).
Qed.

Lemma walk_shared sim r ps :
  Forall (shared_same_direction sim r) ps ->
  CanActivate_walk sim r true ps = Some true.
Proof.
  induction 1 as [| pos rest (ti & Hti & Hcase) _ IH]; [done |].
  destruct (is_boundary r ti) eqn:Hb.
  - by rewrite (walk_boundary _ _ _ _ _ ti).
  - destruct Hcase as [? | (Hc & ar & prev & arpi & Har & Hid & Hprev & Harpi & Hdir)];
      [done |].
    rewrite (walk_occupied _ _ _ _ _ ti ar prev arpi); try done.
    + apply Z.eqb_eq in Hdir as ->. by apply Z.eqb_neq in Hid as ->.
    + apply andb_false_r.
Qed.

(** X28: a route may share the end of an active route: it is accepted when
    the walk first crosses bounding signals and free items without active
    conflict, then meets an item that is not a points item and is held by
    another route in the same direction, and from there on only crosses
    bounding signals and items held by other routes in the same direction,
    none with an active conflict item. *)
Theorem CanActivate_accepts_shared_end
    (sm : StandardManager) sim r pre pos rest ti :
  Positions r = pre ++ pos :: rest ->
  Forall (boundary_or_clear sim r) pre ->
  Position_TrackItem sim pos = Some ti ->
  is_boundary r ti = false ->
  ti_Type ti <> TypePoints ->
  Forall (shared_same_direction sim r) (pos :: rest) ->
  CanActivate sm sim r = Some true.
Proof.
  intros Hps Hpre Hti Hb Hty Hshared.
  rewrite CanActivate_unfold, Hps, walk_through_clear by done.
  apply Forall_cons in Hshared as [(ti' & Hti' & Hcase) Hrest].
  rewrite Hti in Hti'. injection Hti' as <-.
  destruct Hcase as [? | (Hc & ar & prev & arpi & Har & Hid & Hprev & Harpi & Hdir)];
    [congruence |].
  rewrite (walk_occupied _ _ _ _ _ ti ar prev arpi); try done.
  - apply Z.eqb_eq in Hdir as ->. apply Z.eqb_neq in Hid as ->. simpl.
    by apply walk_shared.
  - by rewrite bool_decide_eq_false_2.
Qed.

Lemma CanActivate_accepts_shared_end_witness :
  CanActivate mkStandardManager sim_shared route_1 = Some true.
Proof.
  apply (CanActivate_accepts_shared_end mkStandardManager sim_shared route_1
           [mkPosition 10 9] (mkPosition 11 10)
           [mkPosition 12 11; mkPosition 20 12]
           (line 11 None (Some route_2) (Some 10))).
  - reflexivity.
  - apply Forall_cons; split; [| apply Forall_nil_2].
    exists (signal 10 None None). split; [reflexivity | by left].
  - reflexivity.
  - reflexivity.
  - discriminate.
  - apply Forall_cons; split; [| apply Forall_cons; split;
                                  [| apply Forall_cons; split; [| apply Forall_nil_2]]].
    + eexists. split; [reflexivity |]. right. split; [reflexivity |].
      exists route_2, (signal 10 None None), (signal 10 None None).
      repeat split. simpl. lia.
    + eexists. split; [reflexivity |]. right. split; [reflexivity |].
      exists route_2, (line 11 None (Some route_2) (Some 10)),
        (line 11 None (Some route_2) (Some 10)).
      repeat split. simpl. lia.
    + exists (signal 20 None None). split; [reflexivity | by left].
Defined.
